(** * Download / progress-tracking subsystem of the video-download API

    A shallow embedding of the job-tracking pipeline of the server
    ([app.post('/v1/download')], its stdout / close / file-stream handlers,
    the progress endpoint, [broadcastProgress], the WebSocket subscribe
    handler), of the [DownloadManager] queue gate, of the rate limiter that
    guards the endpoints and of the request logger, followed by the
    properties proved about them.

    Conventions of the embedding
    - JavaScript strings are [string]s of 8-bit characters (code units below
      256).
    - JavaScript numbers that hold a parsed percentage are kept as the exact
      decimal value ([Q]) with an explicit [NaN]; rounding a decimal to the
      nearest double is monotone and fixes every integer used here, so
      [Math.min] and comparisons against 99 and 100 agree with the doubles.
    - Template literals that format a number ([toFixed], an exit code) are
      kept structured: the label and the number it was built from.
    - The event loop is a transition function over an explicit server state;
      every callback of the source is one event. *)

From Stdlib Require Import ZArith QArith Qminmax String Ascii List Bool Lia.
From stdpp Require Import gmap strings list.

Local Open Scope string_scope.
Local Open Scope Z_scope.

(** ** JavaScript values that cross the boundary *)

(** The JSON values a request body field or a WebSocket message field can
    hold. Objects and arrays are opaque: the code only tests their truthiness
    and compares them with [===] against strings. *)
Inductive jsval : Type :=
  | JUndef
  | JNull
  | JBool (b : bool)
  | JNum (z : Z)
  | JStr (s : string)
  | JObj.

(** [!!v] of JavaScript: falsy are undefined, null, false, 0 and the empty
    string. *)
Definition truthy (v : jsval) : bool :=
  match v with
  | JUndef | JNull => false
  | JBool b => b
  | JNum z => negb (z =? 0)
  | JStr s => negb (String.eqb s "")
  | JObj => true
  end.

(** [v === s] for a string [s]. *)
Definition strict_eq_str (v : jsval) (s : string) : bool :=
  match v with
  | JStr t => String.eqb t s
  | _ => false
  end.

(** ** Character classes of the regular expressions *)

Definition code (c : ascii) : N := N_of_ascii c.

(** [\d] *)
Definition is_digit (c : ascii) : bool :=
  ((48 <=? code c) && (code c <=? 57))%N.

(** [\w] : letters, digits and underscore. *)
Definition is_word (c : ascii) : bool :=
  (is_digit c
   || ((65 <=? code c) && (code c <=? 90))
   || ((97 <=? code c) && (code c <=? 122))
   || (code c =? 95))%N.

(** [\s] restricted to code units below 256: TAB, LF, VT, FF, CR, space and
    the no-break space. *)
Definition is_space (c : ascii) : bool :=
  (((9 <=? code c) && (code c <=? 13)) || (code c =? 32) || (code c =? 160))%N.

(** [.] : anything but a line terminator. *)
Definition is_dot (c : ascii) : bool :=
  negb ((code c =? 10) || (code c =? 13))%N.

(** [[\d.]] *)
Definition is_digit_or_point (c : ascii) : bool :=
  is_digit c || Ascii.eqb c ".".

(** [[\d:]] *)
Definition is_digit_or_colon (c : ascii) : bool :=
  is_digit c || Ascii.eqb c ":".

(** The double quote character. *)
Definition dquote : ascii := ascii_of_nat 34.

(** ** A backtracking matcher for the patterns of the stdout handler

    The five patterns are sequences of literal characters and of character
    classes under a greedy quantifier, with one capture group. The matcher
    follows the backtracking order of the JavaScript engine: a quantified
    class first takes as many characters as it can and gives them back one by
    one; [String.prototype.match] without the [g] flag reports the leftmost
    match. *)

Inductive re_item : Type :=
  | RChar (c : ascii)                               (* one literal *)
  | RRep (cls : ascii -> bool) (lo : nat) (hi : option nat)
                                                    (* class{lo,hi}, greedy *)
  | RGroupOpen                                      (* ( *)
  | RGroupClose.                                    (* ) *)

Definition ROpt cls := RRep cls 0 (Some 1%nat).     (* cls?  *)
Definition RStar cls := RRep cls 0 None.            (* cls*  *)
Definition RPlus cls := RRep cls 1 None.            (* cls+  *)

Fixpoint lit (s : string) : list re_item :=
  match s with
  | EmptyString => []
  | String c s' => RChar c :: lit s'
  end.

Definition hi_allows (hi : option nat) : bool :=
  match hi with
  | Some O => false
  | _ => true
  end.

Definition hi_pred (hi : option nat) : option nat :=
  match hi with
  | Some n => Some (Nat.pred n)
  | None => None
  end.

(** The capture is accumulated in reverse while the group is open. *)
Definition push (incap : bool) (c : ascii) (cap : list ascii) : list ascii :=
  if incap then c :: cap else cap.

(** Greedy repetition of a class: try one more character first, fall back to
    the continuation [k] when the lower bound is met. *)
Definition greedy {R : Type} (k : string -> list ascii -> option R)
    (cls : ascii -> bool) (incap : bool) :
    nat -> option nat -> string -> list ascii -> option R :=
  fix go lo hi s cap :=
    let stop := if Nat.eqb lo 0 then k s cap else None in
    match s with
    | String c s' =>
        if cls c && hi_allows hi then
          match go (Nat.pred lo) (hi_pred hi) s' (push incap c cap) with
          | Some r => Some r
          | None => stop
          end
        else stop
    | EmptyString => stop
    end.

(** Match the pattern at the start of [s]; the result is the text of the
    capture group. *)
Fixpoint match_here (p : list re_item) (incap : bool) (s : string)
    (cap : list ascii) : option string :=
  match p with
  | [] => Some (string_of_list_ascii (rev cap))
  | RChar c :: p' =>
      match s with
      | String c' s' =>
          if Ascii.eqb c c' then match_here p' incap s' (push incap c' cap)
          else None
      | EmptyString => None
      end
  | RRep cls lo hi :: p' =>
      greedy (fun s' cap' => match_here p' incap s' cap') cls incap lo hi s cap
  | RGroupOpen :: p' => match_here p' true s cap
  | RGroupClose :: p' => match_here p' false s cap
  end.

(** [s.match(p)] for a pattern without the [g] flag: the first capture of
    the leftmost match, [None] for JavaScript's [null]. *)
Fixpoint re_match (p : list re_item) (s : string) : option string :=
  match match_here p false s [] with
  | Some r => Some r
  | None =>
      match s with
      | EmptyString => None
      | String _ s' => re_match p s'
      end
  end.

(** The percentage: [/\[download\]\s+(\d+\.?\d* )%/] (the group holds
    digits, an optional point, digits). *)
Definition re_download : list re_item :=
  lit "[download]" ++ [RPlus is_space; RGroupOpen; RPlus is_digit;
    ROpt (Ascii.eqb "."); RStar is_digit; RGroupClose; RChar "%"].

(** [/\[download\]\s+[\d.]+%\s+of\s+~?\s*([\d.]+\w+)/] *)
Definition re_size : list re_item :=
  lit "[download]" ++ [RPlus is_space; RPlus is_digit_or_point; RChar "%";
    RPlus is_space] ++ lit "of" ++ [RPlus is_space; ROpt (Ascii.eqb "~");
    RStar is_space; RGroupOpen; RPlus is_digit_or_point; RPlus is_word;
    RGroupClose].

(** [/ETA\s+([\d:]+)/] *)
Definition re_eta : list re_item :=
  lit "ETA" ++ [RPlus is_space; RGroupOpen; RPlus is_digit_or_colon;
    RGroupClose].

(** [/\[download\] Destination: (.+)/] *)
Definition re_dest : list re_item :=
  lit "[download] Destination: " ++ [RGroupOpen; RPlus is_dot; RGroupClose].

(** [/\[Merger\] Merging formats into "(.+)"/] *)
Definition re_merger : list re_item :=
  lit "[Merger] Merging formats into " ++ [RChar dquote] ++
  [RGroupOpen; RPlus is_dot; RGroupClose; RChar dquote].



(** ** [String.prototype.trim] and [parseFloat] *)

Fixpoint trim_start (s : string) : string :=
  match s with
  | String c s' => if is_space c then trim_start s' else s
  | EmptyString => EmptyString
  end.

Definition reverse_string (s : string) : string :=
  string_of_list_ascii (rev (list_ascii_of_string s)).

(** [s.trim()] : white space and line terminators are removed at both ends. *)
Definition trim (s : string) : string :=
  reverse_string (trim_start (reverse_string (trim_start s))).

(** A JavaScript number holding a percentage: [NaN] or a finite value. *)
Inductive num : Type :=
  | NaN
  | Fin (q : Q).

Definition digit_val (c : ascii) : Z := Z.of_N (code c) - 48.

(** Reads the longest run of decimal digits, continuing the value [acc];
    returns the value, the number of digits read and the rest. *)
Fixpoint read_digits (s : string) (acc : Z) (n : nat) : Z * nat * string :=
  match s with
  | String c s' =>
      if is_digit c then read_digits s' (10 * acc + digit_val c) (S n)
      else (acc, n, s)
  | EmptyString => (acc, n, s)
  end.

(** [parseFloat] on the unsigned decimal literals (digits, an optional point,
    digits; the longest such prefix is read, [NaN] when there is no digit).
    The handler applies it to the text captured by the group of
    [re_download] only, which holds no sign, exponent or white space. *)
Definition parseFloat (s : string) : num :=
  let '(ip, n, rest) := read_digits s 0 0 in
  match rest with
  | String "."%char rest' =>
      let '(v, m, _) := read_digits rest' ip 0 in
      if Nat.eqb n 0 && Nat.eqb m 0 then NaN
      else Fin (Qred (v # Z.to_pos (10 ^ Z.of_nat m)))
  | _ => if Nat.eqb n 0 then NaN else Fin (inject_Z ip)
  end.

(** [Math.min(a, b)] for a finite [b]. *)
Definition Math_min (a : num) (b : Q) : num :=
  match a with
  | NaN => NaN
  | Fin q => Fin (Qmin q b)
  end.

(** ** The job record *)

Inductive job_status : Type :=
  | Initializing
  | Downloading
  | Streaming
  | Completed
  | Failed.

(** The [stage] labels. [StageDownloading p] stands for the template literal
    [Downloading: ${p.toFixed(1)}%]. *)
Inductive job_stage : Type :=
  | StageStarting          (* 'Starting download...' *)
  | StageDownloading (p : num)
  | StageSending           (* 'Sending to browser...' *)
  | StageComplete          (* 'Download complete!' *)
  | StageDownloadFailed    (* 'Download failed' *)
  | StageFailed.           (* 'Failed' *)

(** The [error] texts. [ErrExit code] stands for
    [yt-dlp exited with code ${code}], [ErrMessage m] for [error.message]. *)
Inductive job_error : Type :=
  | ErrExit (code : option Z)
  | ErrMessage (m : string).

(** A job object of the registry. Every key is optional: an object built by
    spreading [undefined] has none of them. *)
Record job : Type := mkJob {
  jobId : option string;
  status : option job_status;
  progress : option num;
  stage : option job_stage;
  url : option jsval;
  format_id : option jsval;
  totalSize : option string;
  eta : option string;
  error : option job_error
}.

(** [{}] *)
Definition empty_job : job :=
  mkJob None None None None None None None None None.

(** [{...o}] for [o = activeJobs.get(jobId)]: spreading [undefined] gives the
    empty object. *)
Definition spread (o : option job) : job :=
  match o with
  | Some jb => jb
  | None => empty_job
  end.

Definition set_status (s : job_status) (jb : job) : job :=
  mkJob (jobId jb) (Some s) (progress jb) (stage jb) (url jb) (format_id jb)
        (totalSize jb) (eta jb) (error jb).
Definition set_progress (p : num) (jb : job) : job :=
  mkJob (jobId jb) (status jb) (Some p) (stage jb) (url jb) (format_id jb)
        (totalSize jb) (eta jb) (error jb).
Definition set_stage (g : job_stage) (jb : job) : job :=
  mkJob (jobId jb) (status jb) (progress jb) (Some g) (url jb) (format_id jb)
        (totalSize jb) (eta jb) (error jb).
Definition set_totalSize (t : string) (jb : job) : job :=
  mkJob (jobId jb) (status jb) (progress jb) (stage jb) (url jb) (format_id jb)
        (Some t) (eta jb) (error jb).
Definition set_eta (e : string) (jb : job) : job :=
  mkJob (jobId jb) (status jb) (progress jb) (stage jb) (url jb) (format_id jb)
        (totalSize jb) (Some e) (error jb).
Definition set_error (e : job_error) (jb : job) : job :=
  mkJob (jobId jb) (status jb) (progress jb) (stage jb) (url jb) (format_id jb)
        (totalSize jb) (eta jb) (Some e).

(** ** The job registry [activeJobs] *)

(** The update idiom of the source,
    [activeJobs.set(id, {...activeJobs.get(id), ...patch})], with the patch
    as a function on the spread object. *)
Definition registry_update (id : string) (patch : job -> job)
    (reg : gmap string job) : gmap string job :=
  <[id := patch (spread (reg !! id))]> reg.

(** The result of the progress endpoint. *)
Inductive progress_response : Type :=
  | NotFound404          (* 404 { error: 'Job not found' } *)
  | JobJson (jb : job).  (* res.json(job) *)

(** [app.get('/v1/download/progress/:jobId')] after authentication. *)
Definition get_progress (reg : gmap string job) (id : string)
    : progress_response :=
  match reg !! id with
  | None => NotFound404
  | Some jb => JobJson jb
  end.


(** ** WebSocket clients and [broadcastProgress] *)

(** One element of [wss.clients]: whether [readyState] is [OPEN], the
    [jobId] property the subscribe handler sets on the socket (undefined
    until then), and the messages sent to it so far, oldest first. A message
    is the job snapshot that [JSON.stringify] serialises. *)
Record client : Type := mkClient {
  client_open : bool;
  client_jobId : jsval;
  client_inbox : list job
}.

(** A WebSocket message as the handler sees it. [MsgThrows] covers a text
    that [JSON.parse] rejects and a parsed [null], whose property access
    throws: both end in the [catch]. [MsgData ty id] is a parsed value with
    [data.type = ty] and [data.jobId = id]. *)
Inductive ws_message : Type :=
  | MsgThrows
  | MsgData (ty : jsval) (id : jsval).

(** [ws.on('message')] *)
Definition on_message (msg : ws_message) (ws : client) : client :=
  match msg with
  | MsgData ty id =>
      if strict_eq_str ty "subscribe" && truthy id
      then mkClient (client_open ws) id (client_inbox ws)
      else ws
  | MsgThrows => ws
  end.

Definition send (payload : job) (ws : client) : client :=
  mkClient (client_open ws) (client_jobId ws) (client_inbox ws ++ [payload])%list.

(** [broadcastProgress(jobId, progress)] *)
Definition broadcastProgress (id : string) (payload : job)
    (cs : list client) : list client :=
  map (fun c =>
         if client_open c && strict_eq_str (client_jobId c) id
         then send payload c else c) cs.

(** ** Temporary directories *)

Inductive fs_error : Type :=
  | ENOENT.

(** [path.join(__dirname, 'temp', jobId)], relative to [__dirname]. *)
Definition tempDir (id : string) : string := "temp/" +:+ id.

(** [fs.rm(dir, { recursive: true, force })] on the set of existing
    directories: the directory goes with all it holds; a missing directory is
    an error only without [force]. *)
Definition fs_rm (force : bool) (dir : string) (dirs : gset string)
    : gset string * option fs_error :=
  if decide (dir ∈ dirs) then (dirs ∖ {[dir]}, None)
  else (dirs, if force then None else Some ENOENT).

(** [fs.promises.mkdir(dir, { recursive: true })] when it succeeds. *)
Definition fs_mkdir (dir : string) (dirs : gset string) : gset string :=
  {[dir]} ∪ dirs.

(** ** The closure of one download request *)

(** Where the request stands among the callbacks registered for it. *)
Inductive req_phase : Type :=
  | Running      (* process spawned; stdout and close handlers armed *)
  | AwaitStat    (* close handler suspended on fs.promises.stat *)
  | Piping       (* fileStream piped into the response *)
  | Done.        (* no callback left *)

Inductive res_error : Type :=
  | MissingUrl        (* 'Missing "url" in request body' *)
  | SendFailed        (* 'Failed to send downloaded file' *)
  | DownloadFailed    (* 'Download failed' *)
  | InternalError.    (* 'An internal server error occurred ...' *)

(** The HTTP response [res] of the request. *)
Inductive response : Type :=
  | ResPending
  | ResJson (code : Z) (e : res_error)
  | ResFile (file : string) (size : N).

Definition headersSent (r : response) : bool :=
  match r with
  | ResPending => false
  | _ => true
  end.

Record request : Type := mkRequest {
  downloadedFile : option string;   (* null until a path is announced *)
  phase : req_phase;
  res : response
}.

(** ** The server state *)

Record server : Type := mkServer {
  activeJobs : gmap string job;
  clients : list client;
  requests : gmap string request;
  tempDirs : gset string;
  timers : list (N * string);     (* setTimeout: due time in ms, job id *)
  clock : N;                      (* the injected clock, in ms *)
  spawned : list (string * jsval) (* spawn calls: job id and url argument *)
}.

Definition init_server : server := mkServer ∅ [] ∅ ∅ [] 0 [].

Definition with_activeJobs (f : gmap string job -> gmap string job)
    (st : server) : server :=
  mkServer (f (activeJobs st)) (clients st) (requests st) (tempDirs st)
           (timers st) (clock st) (spawned st).
Definition with_clients (f : list client -> list client)
    (st : server) : server :=
  mkServer (activeJobs st) (f (clients st)) (requests st) (tempDirs st)
           (timers st) (clock st) (spawned st).
Definition with_requests (f : gmap string request -> gmap string request)
    (st : server) : server :=
  mkServer (activeJobs st) (clients st) (f (requests st)) (tempDirs st)
           (timers st) (clock st) (spawned st).
Definition with_tempDirs (f : gset string -> gset string)
    (st : server) : server :=
  mkServer (activeJobs st) (clients st) (requests st) (f (tempDirs st))
           (timers st) (clock st) (spawned st).
Definition with_timers (f : list (N * string) -> list (N * string))
    (st : server) : server :=
  mkServer (activeJobs st) (clients st) (requests st) (tempDirs st)
           (f (timers st)) (clock st) (spawned st).
Definition with_clock (f : N -> N) (st : server) : server :=
  mkServer (activeJobs st) (clients st) (requests st) (tempDirs st)
           (timers st) (f (clock st)) (spawned st).
Definition with_spawned (f : list (string * jsval) -> list (string * jsval))
    (st : server) : server :=
  mkServer (activeJobs st) (clients st) (requests st) (tempDirs st)
           (timers st) (clock st) (f (spawned st)).

(** [activeJobs.set(id, {...activeJobs.get(id), ...patch})] followed by
    [broadcastProgress(id, activeJobs.get(id))]. *)
Definition update_and_broadcast (id : string) (patch : job -> job)
    (st : server) : server :=
  let jb := patch (spread (activeJobs st !! id)) in
  with_clients (broadcastProgress id jb)
    (with_activeJobs (registry_update id patch) st).

(** [fs.rm(tempDir, { recursive: true, force: true }, () => {})] : the
    callback drops the error. *)
Definition cleanup (id : string) (st : server) : server :=
  with_tempDirs (fun d => fst (fs_rm true (tempDir id) d)) st.

(** The retention delay [5 * 60 * 1000]. *)
Definition retention_ms : N := 5 * 60 * 1000.

(** ** The callbacks of [app.post('/v1/download')] *)

(** The file announced by a chunk: a merger line supersedes a destination
    line, which supersedes what was known. *)
Definition announced_file (output : string) (known : option string)
    : option string :=
  let after_dest :=
    match re_match re_dest output with
    | Some d => Some (trim d)
    | None => known
    end in
  match re_match re_merger output with
  | Some m => Some (trim m)
  | None => after_dest
  end.

(** The object [jobUpdate] built when the percentage pattern matched with
    capture [m]. *)
Definition jobUpdate (m : string) (output : string) (old : option job)
    : job :=
  let p := parseFloat m in
  let u := set_stage (StageDownloading p)
             (set_progress (Math_min p 99)
                (set_status Downloading (spread old))) in
  let u := match re_match re_size output with
           | Some sz => set_totalSize sz u
           | None => u
           end in
  match re_match re_eta output with
  | Some e => set_eta e u
  | None => u
  end.

(** [ytdlp.stdout.on('data')] *)
Definition stdout_data (id : string) (output : string) (r : request)
    (st : server) : server :=
  let r' := mkRequest (announced_file output (downloadedFile r))
                      (phase r) (res r) in
  let st1 := with_requests (insert id r') st in
  match re_match re_download output with
  | Some m =>
      let u := jobUpdate m output (activeJobs st !! id) in
      with_clients (broadcastProgress id u)
        (with_activeJobs (insert id u) st1)
  | None => st1
  end.

(** A non-null, non-empty [downloadedFile]. *)
Definition file_truthy (f : option string) : option string :=
  match f with
  | Some s => if String.eqb s "" then None else Some s
  | None => None
  end.

(** [ytdlp.on('close')] up to its first suspension point. *)
Definition close_handler (id : string) (exit_code : option Z) (r : request)
    (st : server) : server :=
  match exit_code, file_truthy (downloadedFile r) with
  | Some 0, Some _ =>
      let st1 := update_and_broadcast id
                   (fun jb => set_stage StageSending
                      (set_progress (Fin 100) (set_status Streaming jb))) st in
      with_requests (insert id (mkRequest (downloadedFile r) AwaitStat
                                          (res r))) st1
  | _, _ =>
      let res' := if headersSent (res r) then res r
                  else ResJson 500 DownloadFailed in
      let st1 := update_and_broadcast id
                   (fun jb => set_error (ErrExit exit_code)
                      (set_stage StageDownloadFailed
                         (set_status Failed jb))) st in
      cleanup id
        (with_requests (insert id (mkRequest (downloadedFile r) Done res'))
           st1)
  end.

(** The close handler resumed after [fs.promises.stat]: [Some size] when it
    resolved, [None] when it threw (the [catch] of the handler). *)
Definition stat_result (id : string) (size : option N) (r : request)
    (st : server) : server :=
  match size with
  | Some n =>
      with_requests
        (insert id (mkRequest (downloadedFile r) Piping
                      (ResFile (default "" (downloadedFile r)) n))) st
  | None =>
      let res' := if headersSent (res r) then res r
                  else ResJson 500 SendFailed in
      cleanup id
        (with_requests (insert id (mkRequest (downloadedFile r) Done res'))
           st)
  end.

(** [fileStream.on('end')] *)
Definition stream_end (id : string) (r : request) (st : server) : server :=
  let st1 := update_and_broadcast id
               (fun jb => set_stage StageComplete
                  (set_progress (Fin 100) (set_status Completed jb))) st in
  let st2 := cleanup id st1 in
  with_requests (insert id (mkRequest (downloadedFile r) Done (res r)))
    (with_timers (fun t => (t ++ [((clock st + retention_ms)%N, id)])%list) st2).

(** [fileStream.on('error')] *)
Definition stream_error (id : string) (r : request) (st : server) : server :=
  with_requests (insert id (mkRequest (downloadedFile r) Done (res r)))
    (cleanup id st).

(** The outer [catch] of the request handler. *)
Definition post_catch (id : string) (message : string) (st : server)
    : server :=
  let st1 := update_and_broadcast id
               (fun jb => set_error (ErrMessage message)
                  (set_stage StageFailed (set_status Failed jb))) st in
  cleanup id
    (with_requests (insert id (mkRequest None Done
                                 (ResJson 500 InternalError))) st1).

(** [app.post('/v1/download')] after authentication, up to the registration
    of the process callbacks. [id] is the identifier [uuidv4()] returns;
    [mkdir_err] and [spawn_err] are the messages of the exceptions
    [fs.promises.mkdir] and [spawn] throw, if they do. The second component
    is the response sent before the handler returns, [ResPending] if none. *)
Definition post_download (id : string) (body_url body_format : jsval)
    (mkdir_err spawn_err : option string) (st : server)
    : server * response :=
  if negb (truthy body_url) then (st, ResJson 400 MissingUrl)
  else
    let initial := mkJob (Some id) (Some Initializing) (Some (Fin 0))
                     (Some StageStarting) (Some body_url) (Some body_format)
                     None None None in
    let st1 := with_activeJobs (insert id initial) st in
    match mkdir_err with
    | Some msg => (post_catch id msg st1, ResJson 500 InternalError)
    | None =>
        let st2 := with_clients (broadcastProgress id initial)
                     (with_tempDirs (fs_mkdir (tempDir id)) st1) in
        match spawn_err with
        | Some msg => (post_catch id msg st2, ResJson 500 InternalError)
        | None =>
            (with_requests (insert id (mkRequest None Running ResPending))
               (with_spawned (fun l => (l ++ [(id, body_url)])%list) st2),
             ResPending)
        end
    end.

(** ** Timers *)

Definition due (now : N) (t : N * string) : bool := (fst t <=? now)%N.

(** The clock advances by [dt]; every timer that is due runs its
    [activeJobs.delete(jobId)]. *)
Definition tick (dt : N) (st : server) : server :=
  let now := (clock st + dt)%N in
  let fired := filter (fun t => due now t = true) (timers st) in
  mkServer (foldr (fun t reg => delete (snd t) reg) (activeJobs st) fired)
           (clients st) (requests st) (tempDirs st)
           (filter (fun t => due now t = false) (timers st))
           now (spawned st).

(** ** The event loop *)

Inductive event : Type :=
  | EPost (id : string) (body_url body_format : jsval)
          (mkdir_err spawn_err : option string)
  | EStdout (id : string) (output : string)
  | EStderr (id : string) (output : string)
  | EClose (id : string) (exit_code : option Z)
  | EStat (id : string) (size : option N)
  | EStreamEnd (id : string)
  | EStreamError (id : string)
  | ETick (dt : N)
  | EWsConnect
  | EWsMessage (i : nat) (msg : ws_message)
  | EWsClose (i : nat).

(** Runs a callback of request [id] when the request is in phase [ph]: a
    callback is delivered only while it is armed (stdout data and close while
    the process runs, close once, the stream events once the file is piped). *)
Definition in_phase (ph : req_phase) (id : string)
    (h : request -> server -> server) (st : server) : server :=
  match requests st !! id with
  | Some r =>
      match ph, phase r with
      | Running, Running | AwaitStat, AwaitStat | Piping, Piping => h r st
      | _, _ => st
      end
  | None => st
  end.

(** [uuidv4()] never returns an identifier that was used before. *)
Definition fresh (id : string) (st : server) : bool :=
  bool_decide (requests st !! id = None).

Definition close_client (ws : client) : client :=
  mkClient false (client_jobId ws) (client_inbox ws).

Definition step (st : server) (ev : event) : server :=
  match ev with
  | EPost id u f me se =>
      if negb (truthy u) || fresh id st
      then fst (post_download id u f me se st) else st
  | EStdout id output => in_phase Running id (stdout_data id output) st
  | EStderr id output => st
  | EClose id c => in_phase Running id (close_handler id c) st
  | EStat id n => in_phase AwaitStat id (stat_result id n) st
  | EStreamEnd id => in_phase Piping id (stream_end id) st
  | EStreamError id => in_phase Piping id (stream_error id) st
  | ETick dt => tick dt st
  | EWsConnect => with_clients (fun cs => (cs ++ [mkClient true JUndef []])%list) st
  | EWsMessage i msg =>
      with_clients (fun cs =>
        match cs !! i with
        | Some ws => if client_open ws then <[i := on_message msg ws]> cs
                     else cs
        | None => cs
        end) st
  | EWsClose i => with_clients (alter close_client i) st
  end.

Definition run (st : server) (evs : list event) : server :=
  fold_left step evs st.

(** The registry entry of a job after each event of a run. *)
Fixpoint snapshots (id : string) (st : server) (evs : list event)
    : list (option job) :=
  match evs with
  | [] => []
  | ev :: evs' =>
      let st' := step st ev in
      (activeJobs st' !! id) :: snapshots id st' evs'
  end.


(** ** The queue gate [DownloadManager] *)

(** A download job handed to the gate: its [jobId] and a tag standing for
    its [execute] closure, which tells apart two jobs with one identifier. *)
Record downloadJob : Type := mkDownloadJob {
  dj_jobId : string;
  dj_execute : nat
}.

(** What the gate emits. *)
Inductive dm_emit : Type :=
  | EmQueued (id : string) (queuePosition : nat)
  | EmStarted (id : string) (activeCount : nat) (queueLength : nat)
  | EmCompleted (id : string)
  | EmFailed (id : string) (message : string).

(** The fields of a [DownloadManager], the events emitted so far, and two
    ghost lists: the jobs whose [execute] has been called, in call order, and
    those among them whose promise has not settled yet. *)
Record manager : Type := mkManager {
  maxConcurrentDownloads : Z;
  queue : list downloadJob;
  activeDownloads : gmap string downloadJob;
  emitted : list dm_emit;
  started : list downloadJob;
  executing : list downloadJob
}.

(** [new DownloadManager({ maxConcurrentDownloads: o })]: a missing or zero
    option gives the default 5. *)
Definition new_manager (o : option Z) : manager :=
  mkManager (match o with
             | Some n => if n =? 0 then 5 else n
             | None => 5
             end) [] ∅ [] [] [].

(** [processQueue()] up to [await job.execute()]. *)
Definition processQueue (m : manager) : manager :=
  if Z.of_nat (size (activeDownloads m)) >=? maxConcurrentDownloads m then m
  else
    match queue m with
    | [] => m
    | jb :: rest =>
        let active := <[dj_jobId jb := jb]> (activeDownloads m) in
        mkManager (maxConcurrentDownloads m) rest active
          (emitted m ++ [EmStarted (dj_jobId jb) (size active)
                           (length rest)])%list
          (started m ++ [jb])%list
          (executing m ++ [jb])%list
    end.

(** [addToQueue(downloadJob)] *)
Definition addToQueue (jb : downloadJob) (m : manager) : manager :=
  let q := (queue m ++ [jb])%list in
  processQueue
    (mkManager (maxConcurrentDownloads m) q (activeDownloads m)
       (emitted m ++ [EmQueued (dj_jobId jb) (length q)])%list
       (started m) (executing m)).

(** The rest of [processQueue] once [job.execute()] of the [i]-th executing
    job has settled: [None] when it resolved, [Some message] when it
    rejected. *)
Definition settle (i : nat) (outcome : option string) (m : manager)
    : manager :=
  match executing m !! i with
  | None => m
  | Some jb =>
      processQueue
        (mkManager (maxConcurrentDownloads m) (queue m)
           (delete (dj_jobId jb) (activeDownloads m))
           (emitted m ++
              [match outcome with
               | None => EmCompleted (dj_jobId jb)
               | Some msg => EmFailed (dj_jobId jb) msg
               end])%list
           (started m)
           (delete i (executing m)))
  end.

Inductive dm_event : Type :=
  | DmAdd (jb : downloadJob)
  | DmSettle (i : nat) (outcome : option string).

Definition dm_step (m : manager) (ev : dm_event) : manager :=
  match ev with
  | DmAdd jb => addToQueue jb m
  | DmSettle i o => settle i o m
  end.

Definition dm_run (m : manager) (evs : list dm_event) : manager :=
  fold_left dm_step evs m.

(** The jobs handed to [addToQueue] by a run, in order. *)
Definition enqueued (evs : list dm_event) : list downloadJob :=
  omap (fun ev => match ev with DmAdd jb => Some jb | _ => None end) evs.

(** The [activeCount] of every [started] event emitted. *)
Definition started_counts (m : manager) : list nat :=
  omap (fun e => match e with EmStarted _ c _ => Some c | _ => None end)
       (emitted m).

(** [getQueueStatus()] without the list of active identifiers. *)
Definition getQueueStatus (m : manager) : nat * nat * Z :=
  (size (activeDownloads m), length (queue m), maxConcurrentDownloads m).

(** [isJobActive(jobId)] *)
Definition isJobActive (id : string) (m : manager) : bool :=
  bool_decide (is_Some (activeDownloads m !! id)).

(** ** Vocabulary of the statements *)

(** The capture after the characters [pre] have been consumed. *)
Definition pushes (incap : bool) (pre : list ascii) (cap : list ascii)
    : list ascii :=
  if incap then (rev pre ++ cap)%list else cap.

(** The progress of a job is a number between 0 and [b]. *)
Definition progress_within (jb : job) (b : Q) : Prop :=
  exists q, progress jb = Some (Fin q) /\ (0 <= q)%Q /\ (q <= b)%Q.

(** What the registry and the disk hold for a request in each phase. *)
Definition req_ok (reg : gmap string job) (dirs : gset string)
    (id : string) (r : request) : Prop :=
  match phase r with
  | Running =>
      exists jb, reg !! id = Some jb /\
        (status jb = Some Initializing \/ status jb = Some Downloading) /\
        progress_within jb 99
  | AwaitStat | Piping =>
      exists jb, reg !! id = Some jb /\
        status jb = Some Streaming /\ progress jb = Some (Fin 100)
  | Done =>
      (tempDir id ∉ dirs) /\
      forall jb, reg !! id = Some jb ->
        (status jb = Some Completed /\ progress jb = Some (Fin 100)) \/
        (status jb = Some Failed /\ progress_within jb 99) \/
        (status jb = Some Streaming /\ progress jb = Some (Fin 100))
  end.

(** The invariant of the server: every request is consistent with the
    registry and the disk, every registry entry belongs to a request, and
    eviction timers exist for finished requests only. *)
Record server_inv (st : server) : Prop := mkInv {
  inv_requests : forall id r,
    requests st !! id = Some r -> req_ok (activeJobs st) (tempDirs st) id r;
  inv_owner : forall id,
    is_Some (activeJobs st !! id) -> is_Some (requests st !! id);
  inv_timers : forall t,
    t ∈ timers st ->
    exists r, requests st !! snd t = Some r /\ phase r = Done
}.

(** Projections of a server state built by the setters. *)
Ltac srv_simpl :=
  cbn [activeJobs clients requests tempDirs timers clock spawned
       with_activeJobs with_clients with_requests with_tempDirs with_timers
       with_clock with_spawned update_and_broadcast cleanup
       phase downloadedFile res fst snd] in *.

(** A request followed by the two progress lines of C2. *)
Definition two_lines : list event :=
  [EPost "j" (JStr "https://example.org/v") JUndef None None;
   EStdout "j" "[download] 10.0% of ~50.00MiB ETA 00:30";
   EStdout "j" "[download] 100% of 50.00MiB"].

(** The entries the job of the scenarios goes through. *)
Definition job_downloading_10 : job :=
  mkJob (Some "j") (Some Downloading) (Some (Fin 10))
    (Some (StageDownloading (Fin 10)))
    (Some (JStr "https://example.org/v")) (Some JUndef)
    (Some "50.00MiB") (Some "00:30") None.

Definition job_downloading_99 : job :=
  mkJob (Some "j") (Some Downloading) (Some (Fin 99))
    (Some (StageDownloading (Fin 100)))
    (Some (JStr "https://example.org/v")) (Some JUndef)
    (Some "50.00MiB") (Some "00:30") None.

Definition job_initializing : job :=
  mkJob (Some "j") (Some Initializing) (Some (Fin 0)) (Some StageStarting)
    (Some (JStr "https://example.org/v")) (Some JUndef) None None None.

(** The scenario of C2 with a destination announcement before the two
    progress lines. *)
Definition announced_then_two_lines (size : N) : list event :=
  [EPost "j" (JStr "https://example.org/v") JUndef None None;
   EStdout "j" "[download] Destination: temp/j/clip.mp4";
   EStdout "j" "[download] 10.0% of ~50.00MiB ETA 00:30";
   EStdout "j" "[download] 100% of 50.00MiB";
   EClose "j" (Some 0);
   EStat "j" (Some size);
   EStreamEnd "j"].

(** The status of each snapshot. *)
Fixpoint statuses (l : list (option job)) : list (option job_status) :=
  match l with
  | [] => []
  | o :: l' => (o ≫= status) :: statuses l'
  end.

(** A job brought to the point where its file is piped to the response. *)
Definition streaming_job_events : list event :=
  [EPost "j" (JStr "https://example.org/v") JUndef None None;
   EStdout "j" "[download] Destination: temp/j/clip.mp4";
   EStdout "j" "[download] 100% of 50.00MiB";
   EClose "j" (Some 0);
   EStat "j" (Some 52428800%N)].

(** What an event of another request may change for request [id]. *)
Definition untouched (id : string) (st st' : server) : Prop :=
  requests st' !! id = requests st !! id /\
  activeJobs st' !! id = activeJobs st !! id /\
  (forall t, t ∈ timers st' -> snd t = id -> t ∈ timers st) /\
  (forall t, t ∈ timers st -> t ∈ timers st') /\
  clock st' = clock st.

(** The active count, now and at every start so far, is within the
    maximum. *)
Definition within_limit (m : manager) : Prop :=
  Z.of_nat (size (activeDownloads m)) <= maxConcurrentDownloads m /\
  Forall (fun c => Z.of_nat c <= maxConcurrentDownloads m) (started_counts m).

(** Three jobs with distinct identifiers, the first of which completes. *)
Definition three_jobs : list dm_event :=
  [DmAdd (mkDownloadJob "a" 0); DmAdd (mkDownloadJob "b" 1);
   DmAdd (mkDownloadJob "c" 2); DmSettle 0 None].

(** The position of a status in the life of a job. *)
Definition status_rank (s : option job_status) : nat :=
  match s with
  | None | Some Initializing => 0
  | Some Downloading => 1
  | Some Streaming => 2
  | Some Completed | Some Failed => 3
  end.

(** Whether an event is a request with identifier [id]. *)
Definition is_post_for (id : string) (ev : event) : bool :=
  match ev with
  | EPost i _ _ _ _ => String.eqb i id
  | _ => false
  end.

(** One accepted download request. *)
Definition accepted_request : list event :=
  [EPost "j" (JStr "https://example.org/v") JUndef None None].

(** The state of a completed job whose eviction is due at time [D]: still
    served while the clock is before [D], gone from then on. *)
Definition retained (id : string) (D : N) (st : server) : Prop :=
  (exists r, requests st !! id = Some r /\ phase r = Done) /\
  (forall t, t ∈ timers st -> snd t = id -> fst t = D) /\
  (((clock st < D)%N /\ (D, id) ∈ timers st /\
    exists jb, activeJobs st !! id = Some jb /\ status jb = Some Completed)
   \/ ((D <= clock st)%N /\ activeJobs st !! id = None)).

(** A sequence of broadcasts, oldest first. *)
Definition broadcasts (bs : list (string * job)) (cs : list client)
    : list client :=
  fold_left (fun cs b => broadcastProgress (fst b) (snd b) cs) bs cs.

(** What an event does to the set of connections before any broadcast. *)
Definition ws_update (ev : event) (cs : list client) : list client :=
  match ev with
  | EWsConnect => (cs ++ [mkClient true JUndef []])%list
  | EWsMessage i msg =>
      match cs !! i with
      | Some ws => if client_open ws then <[i := on_message msg ws]> cs
                   else cs
      | None => cs
      end
  | EWsClose i => alter close_client i cs
  | _ => cs
  end.

(** The payloads of a sequence of broadcasts that concern job [id]. *)
Definition payloads_for (id : string) (bs : list (string * job)) : list job :=
  snd <$> filter (fun b => fst b = id) bs.

(** Whether an event is a message or a close on connection [i]. *)
Definition touches_connection (i : nat) (ev : event) : bool :=
  match ev with
  | EWsMessage k _ | EWsClose k => Nat.eqb k i
  | _ => false
  end.

(** Two connections that subscribe to the same job. *)
Definition two_subscribers : list event :=
  [EWsConnect; EWsConnect;
   EWsMessage 0 (MsgData (JStr "subscribe") (JStr "j"));
   EWsMessage 1 (MsgData (JStr "subscribe") (JStr "j"))].

(** The registry of active downloads seen as the list of executing jobs. *)
Definition keyed (l : list downloadJob) : list (string * downloadJob) :=
  (fun jb => (dj_jobId jb, jb)) <$> l.

(** The gate when all jobs handed to it, those still to come ([rest])
    included, carry distinct identifiers. *)
Record gate_inv (rest : list downloadJob) (m : manager) : Prop := mkGateInv {
  gate_ids : NoDup (dj_jobId <$> (started m ++ queue m ++ rest)%list);
  gate_sub : executing m `sublist_of` started m;
  gate_map : activeDownloads m = list_to_map (keyed (executing m));
  gate_busy : queue m = [] \/
              maxConcurrentDownloads m <= Z.of_nat (size (activeDownloads m))
}.

(** ** The rate limiter of [utils/security.js] *)

(** The window [windowMs] of the limiter. *)
Definition windowMs : Z := 60000.

(** [requests.filter(timestamp => now - timestamp < windowMs)] *)
Definition recent (now : Z) (requests : list Z) : list Z :=
  filter (fun timestamp => now - timestamp < windowMs) requests.

(** The object a rate-limit check returns. [resetAt] is [None] for the
    invalid date built from an undefined first element. *)
Record rate_result : Type := mkRate {
  allowed : bool;
  remaining : Z;
  resetAt : option Z
}.

(** [checkRateLimit(apiKeyId, limit)] at time [now = Date.now()], on the
    store [rateLimitStore]. *)
Definition checkRateLimit (apiKeyId limit now : Z)
    (store : gmap Z (list Z)) : gmap Z (list Z) * rate_result :=
  let store1 := match store !! apiKeyId with
                | None => <[apiKeyId := []]> store
                | Some _ => store
                end in
  let requests := default [] (store1 !! apiKeyId) in
  let recentRequests := recent now requests in
  if Z.of_nat (length recentRequests) >=? limit then
    (store1,
     mkRate false 0 ((fun first => first + windowMs) <$> head recentRequests))
  else
    let pushed := (recentRequests ++ [now])%list in
    (<[apiKeyId := pushed]> store1,
     mkRate true (limit - Z.of_nat (length pushed)) (Some (now + windowMs))).

(** [cleanupRateLimitStore()] at time [now]. *)
Definition cleanupRateLimitStore (now : Z) (store : gmap Z (list Z))
    : gmap Z (list Z) :=
  omap (fun requests =>
          match recent now requests with
          | [] => None
          | r => Some r
          end) store.

(** The calls the limiter receives. *)
Inductive rl_event : Type :=
  | RlCheck (apiKeyId limit now : Z)
  | RlCleanup (now : Z).

Definition rl_time (ev : rl_event) : Z :=
  match ev with
  | RlCheck _ _ now | RlCleanup now => now
  end.

(** One call on the store and on the log of the checks allowed so far (key,
    time), oldest first. *)
Definition rl_step (s : gmap Z (list Z) * list (Z * Z)) (ev : rl_event)
    : gmap Z (list Z) * list (Z * Z) :=
  match ev with
  | RlCheck k limit now =>
      let out := checkRateLimit k limit now (fst s) in
      (fst out,
       if allowed (snd out) then (snd s ++ [(k, now)])%list else snd s)
  | RlCleanup now => (cleanupRateLimitStore now (fst s), snd s)
  end.

Definition rl_run (evs : list rl_event) : gmap Z (list Z) * list (Z * Z) :=
  fold_left rl_step evs (∅, []).

(** The times at which checks of key [k] were allowed. *)
Definition granted (k : Z) (log : list (Z * Z)) : list Z :=
  snd <$> filter (fun e => fst e = k) log.

(** The clock never goes back from one call to the next. *)
Fixpoint chronological (last : Z) (evs : list rl_event) : bool :=
  match evs with
  | [] => true
  | ev :: evs' => (last <=? rl_time ev) && chronological (rl_time ev) evs'
  end.

(** The time of the last call, [last] when there is none. *)
Definition last_time (last : Z) (evs : list rl_event) : Z :=
  fold_left (fun _ ev => rl_time ev) evs last.

(** What the store and the log agree on from time [last] on. *)
Definition rl_inv (last : Z) (s : gmap Z (list Z) * list (Z * Z)) : Prop :=
  forall k now, last <= now ->
    recent now (default [] (fst s !! k)) = recent now (granted k (snd s)).

(** Two checks in quick succession, a cleanup, and a check a minute
    later. *)
Definition burst : list rl_event :=
  [RlCheck 7 2 1000; RlCheck 7 2 1500; RlCleanup 60000; RlCheck 7 2 60999].

(** ** The fallback file name of the download response *)

(** A character in the range [\x20-\x7E]. *)
Definition is_printable (c : ascii) : bool :=
  ((32 <=? code c) && (code c <=? 126))%N.

(** [filename.replace(/[^\x20-\x7E]/g, '_')] *)
Fixpoint asciiSafeName (filename : string) : string :=
  match filename with
  | EmptyString => EmptyString
  | String c s =>
      String (if is_printable c then c else "_"%char) (asciiSafeName s)
  end.

(** The longest prefix of [s] made of characters of the class. *)
Fixpoint take_while (cls : ascii -> bool) (s : string) : string :=
  match s with
  | String c s' => if cls c then String c (take_while cls s') else EmptyString
  | EmptyString => EmptyString
  end.

(** ** The request logger of [middleware/requestLogger.js] *)

(** The closure of [requestLoggerMiddleware] for one request: whether
    [res.send] is still the wrapper, the flag [logged], and the calls made to
    [logRequest] (the payload size passed, if any), oldest first. *)
Record logger : Type := mkLogger {
  wrapped : bool;
  logged : bool;
  logRequests : list (option N)
}.

Definition new_logger : logger := mkLogger true false [].

(** What happens to the response. [apiKeyId] is the value of
    [req.apiKeyId] at that moment, truthy or not. *)
Inductive logger_event : Type :=
  | LgSend (apiKeyId : bool) (payloadSize : N)
  | LgFinish (apiKeyId : bool) (headers_sent : bool).

Definition logger_step (l : logger) (ev : logger_event) : logger :=
  match ev with
  | LgSend key size =>
      if wrapped l then
        if negb (logged l) && key
        then mkLogger false true (logRequests l ++ [Some size])%list
        else mkLogger false (logged l) (logRequests l)
      else l
  | LgFinish key sent =>
      if negb (logged l) && sent && key
      then mkLogger (wrapped l) true (logRequests l ++ [None])%list
      else l
  end.

Definition logger_run (evs : list logger_event) : logger :=
  fold_left logger_step evs new_logger.

(** The fields of a registry entry that come from the request: the entry
    carries the identifier it is stored under, a truthy [url] and a
    [format_id] key. *)
Definition keeps_request_fields (st : server) : Prop :=
  forall id jb, activeJobs st !! id = Some jb ->
    jobId jb = Some id /\
    (exists u, url jb = Some u /\ truthy u = true) /\
    is_Some (format_id jb).

(** Every process spawned belongs to a request with a truthy [url], and no
    job has two. *)
Definition spawned_ok (st : server) : Prop :=
  NoDup (fst <$> spawned st) /\
  forall id u, (id, u) ∈ spawned st ->
    truthy u = true /\ is_Some (requests st !! id).

(** The identifiers of the [queued] and of the [started] events emitted. *)
Definition queued_ids (l : list dm_emit) : list string :=
  omap (fun e => match e with EmQueued id _ => Some id | _ => None end) l.
Definition started_ids (l : list dm_emit) : list string :=
  omap (fun e => match e with EmStarted id _ _ => Some id | _ => None end) l.

(** * Properties *)

(** ** The matcher: what a successful match consumed *)

Lemma pushes_cons incap c pre cap :
  pushes incap (c :: pre) cap = pushes incap pre (push incap c cap).
Proof.
  unfold pushes, push. destruct incap; [|reflexivity].
  simpl. by rewrite <- app_assoc.
Qed.

Lemma greedy_sound {R} (k : string -> list ascii -> option R) cls incap :
  forall s lo hi cap r,
    greedy k cls incap lo hi s cap = Some r ->
    exists pre rest,
      s = string_of_list_ascii pre +:+ rest /\
      Forall (fun c => cls c = true) pre /\
      (lo <= length pre)%nat /\
      k rest (pushes incap pre cap) = Some r.
Proof.
  induction s as [|c s IH]; intros lo hi cap r H; simpl in H.
  - destruct (Nat.eqb_spec lo 0); [|discriminate].
    exists [], EmptyString. subst lo. repeat split; auto.
    destruct incap; exact H.
  - assert (Hstop : (if Nat.eqb lo 0 then k (String c s) cap else None) = Some r ->
               exists pre rest,
                 String c s = string_of_list_ascii pre +:+ rest /\
                 Forall (fun c => cls c = true) pre /\
                 (lo <= length pre)%nat /\
                 k rest (pushes incap pre cap) = Some r).
    { intros Hs. destruct (Nat.eqb_spec lo 0); [|discriminate].
      exists [], (String c s). subst lo. repeat split; auto.
      destruct incap; exact Hs. }
    destruct (cls c && hi_allows hi) eqn:Hc; [|auto].
    destruct (greedy k cls incap (Nat.pred lo) (hi_pred hi) s
                (push incap c cap)) as [r'|] eqn:Hg; [|auto].
    injection H as ->.
    destruct (IH _ _ _ _ Hg) as (pre & rest & -> & Hall & Hlo & Hk).
    exists (c :: pre), rest. repeat split.
    + constructor; [|exact Hall]. by apply andb_true_iff in Hc as [? _].
    + simpl. lia.
    + by rewrite pushes_cons.
Qed.

Lemma match_lit_sound l : forall p incap s cap r,
  match_here (lit l ++ p) incap s cap = Some r ->
  exists rest, s = l +:+ rest /\
    match_here p incap rest (pushes incap (list_ascii_of_string l) cap)
      = Some r.
Proof.
  induction l as [|c l IH]; intros p incap s cap r H; simpl in *.
  - exists s. split; [reflexivity|]. by destruct incap.
  - destruct s as [|c' s]; [discriminate|].
    destruct (Ascii.eqb_spec c c'); [subst c'|discriminate].
    destruct (IH _ _ _ _ _ H) as (rest & -> & Hm).
    exists rest. split; [reflexivity|]. by rewrite pushes_cons.
Qed.

Lemma re_match_sound p : forall s r,
  re_match p s = Some r ->
  exists pre s', s = pre +:+ s' /\ match_here p false s' [] = Some r.
Proof.
  induction s as [|c s IH]; intros r H; simpl in H.
  - destruct (match_here p false EmptyString []) eqn:E; [|discriminate].
    exists EmptyString, EmptyString. by injection H as ->.
  - destruct (match_here p false (String c s) []) eqn:E.
    + exists EmptyString, (String c s). by injection H as ->.
    + destruct (IH _ H) as (pre & s' & -> & Hm).
      exists (String c pre), s'. auto.
Qed.

Lemma re_match_None_here p s :
  re_match p s = None -> match_here p false s [] = None.
Proof.
  destruct s; simpl; destruct (match_here p false _ []); congruence.
Qed.

(** ** [parseFloat] on a text that starts with a digit *)

Lemma digit_val_nonneg c : is_digit c = true -> 0 <= digit_val c.
Proof.
  unfold is_digit, digit_val. intros H.
  apply andb_true_iff in H as [H _]. apply N.leb_le in H. lia.
Qed.

Lemma read_digits_spec : forall s acc n v m rest,
  read_digits s acc n = (v, m, rest) ->
  0 <= acc ->
  0 <= v /\ (n <= m)%nat /\
  (forall c s', s = String c s' -> is_digit c = true -> (n < m)%nat).
Proof.
  induction s as [|c s IH]; intros acc n v m rest H Hacc; simpl in H.
  - injection H as <- <- <-. repeat split; auto. discriminate.
  - destruct (is_digit c) eqn:Hd.
    + pose proof (digit_val_nonneg c Hd).
      apply IH in H as (Hv & Hn & _); [|lia].
      repeat split; auto; lia.
    + injection H as <- <- <-. repeat split; auto.
      intros c' s' [= <- <-]. congruence.
Qed.

Lemma parseFloat_digit c s :
  is_digit c = true ->
  exists q, parseFloat (String c s) = Fin q /\ (0 <= q)%Q.
Proof.
  intros Hd. unfold parseFloat.
  destruct (read_digits (String c s) 0 0) as [[ip n] rest] eqn:E.
  destruct (read_digits_spec _ _ _ _ _ _ E ltac:(lia)) as (Hip & _ & Hn).
  specialize (Hn _ _ eq_refl Hd).
  assert (Hn0 : Nat.eqb n 0 = false) by (apply Nat.eqb_neq; lia).
  assert (Hint : exists q, (if Nat.eqb n 0 then NaN else Fin (inject_Z ip))
                           = Fin q /\ (0 <= q)%Q).
  { rewrite Hn0. eexists; split; [reflexivity|].
    unfold Qle; simpl. lia. }
  destruct rest as [|c' rest']; [exact Hint|].
  destruct (Ascii.eqb_spec c' "."%char) as [->|Hne].
  - destruct (read_digits rest' ip 0) as [[v m] r'] eqn:E'.
    destruct (read_digits_spec _ _ _ _ _ _ E' Hip) as (Hv & _ & _).
    rewrite Hn0. simpl. eexists; split; [reflexivity|].
    rewrite Qred_correct. unfold Qle; simpl. lia.
  - destruct c' as [[] [] [] [] [] [] [] []]; try exact Hint.
    congruence.
Qed.

Lemma string_of_list_ascii_cons c l :
  string_of_list_ascii (c :: l) = String c (string_of_list_ascii l).
Proof. reflexivity. Qed.

(** The group of the percentage pattern always starts with a digit. *)
Lemma download_capture_digit output m :
  re_match re_download output = Some m ->
  exists c rest, m = String c rest /\ is_digit c = true.
Proof.
  intros H. apply re_match_sound in H as (pre & s & -> & H).
  unfold re_download in H.
  apply match_lit_sound in H as (s1 & -> & H).
  cbn [match_here RPlus ROpt RStar] in H.
  apply greedy_sound in H as (sp & s2 & -> & _ & _ & H).
  cbn [match_here] in H.
  apply greedy_sound in H as (d1 & s3 & -> & Hd1 & Hlen & H).
  cbn [match_here] in H.
  apply greedy_sound in H as (d2 & s4 & -> & _ & _ & H).
  cbn [match_here] in H.
  apply greedy_sound in H as (d3 & s5 & -> & _ & _ & H).
  cbn [match_here] in H.
  destruct s5 as [|c5 s5]; [discriminate|].
  destruct (Ascii.eqb "%" c5); [|discriminate].
  cbn [match_here] in H. injection H as <-.
  destruct d1 as [|c d1]; [simpl in Hlen; lia|].
  apply Forall_cons in Hd1 as [Hc _].
  exists c. eexists. split; [|exact Hc].
  unfold pushes, push. simpl.
  rewrite !rev_app_distr, ?rev_involutive. simpl.
  rewrite ?rev_app_distr, ?rev_involutive. simpl. reflexivity.
Qed.

(** The percentage read from a matching chunk is a number, never [NaN]. *)
Lemma download_capture_parses output m :
  re_match re_download output = Some m ->
  exists q, parseFloat m = Fin q /\ (0 <= q)%Q.
Proof.
  intros H. apply download_capture_digit in H as (c & rest & -> & Hc).
  by apply parseFloat_digit.
Qed.

(** ** What one stdout chunk writes *)

Lemma jobUpdate_status m output old :
  status (jobUpdate m output old) = Some Downloading.
Proof.
  unfold jobUpdate.
  destruct (re_match re_size output), (re_match re_eta output); reflexivity.
Qed.

Lemma jobUpdate_progress m output old :
  progress (jobUpdate m output old) = Some (Math_min (parseFloat m) 99).
Proof.
  unfold jobUpdate.
  destruct (re_match re_size output), (re_match re_eta output); reflexivity.
Qed.

Lemma jobUpdate_stage m output old :
  stage (jobUpdate m output old) = Some (StageDownloading (parseFloat m)).
Proof.
  unfold jobUpdate.
  destruct (re_match re_size output), (re_match re_eta output); reflexivity.
Qed.

Lemma jobUpdate_totalSize m output old :
  totalSize (jobUpdate m output old) =
  match re_match re_size output with
  | Some sz => Some sz
  | None => totalSize (spread old)
  end.
Proof.
  unfold jobUpdate.
  destruct (re_match re_size output), (re_match re_eta output); reflexivity.
Qed.

Lemma jobUpdate_eta m output old :
  eta (jobUpdate m output old) =
  match re_match re_eta output with
  | Some e => Some e
  | None => eta (spread old)
  end.
Proof.
  unfold jobUpdate.
  destruct (re_match re_size output), (re_match re_eta output); reflexivity.
Qed.

Lemma jobUpdate_others m output old :
  jobId (jobUpdate m output old) = jobId (spread old) /\
  url (jobUpdate m output old) = url (spread old) /\
  format_id (jobUpdate m output old) = format_id (spread old) /\
  error (jobUpdate m output old) = error (spread old).
Proof.
  unfold jobUpdate.
  destruct (re_match re_size output), (re_match re_eta output);
    repeat split; reflexivity.
Qed.

(** ** An invariant of the server *)

Lemma tempDir_inj a b : tempDir a = tempDir b -> a = b.
Proof.
  unfold tempDir. intros H.
  lazy beta iota fix delta [String.append] in H. congruence.
Qed.

Lemma fs_rm_elem force d dirs p :
  p ∈ fst (fs_rm force d dirs) <-> p ∈ dirs /\ p <> d.
Proof.
  unfold fs_rm. destruct (decide (d ∈ dirs)) as [Hin|Hout]; simpl.
  - rewrite elem_of_difference, elem_of_singleton. tauto.
  - split; [|tauto]. intros Hp. split; [exact Hp|]. by intros ->.
Qed.

Lemma req_ok_ext reg dirs reg' dirs' id r :
  reg' !! id = reg !! id ->
  (tempDir id ∈ dirs' <-> tempDir id ∈ dirs) ->
  req_ok reg dirs id r -> req_ok reg' dirs' id r.
Proof.
  unfold req_ok. intros -> Hd. destruct (phase r); auto.
  intros [Hn H]. split; [|exact H]. by rewrite Hd.
Qed.

Lemma init_server_inv : server_inv init_server.
Proof.
  split; simpl.
  - intros id r H. by rewrite lookup_empty in H.
  - intros id [x H]. by rewrite lookup_empty in H.
  - intros t H. by apply elem_of_nil in H.
Qed.

(** A callback of request [id], armed (so not in phase [Done]), keeps the
    invariant when it leaves the other requests alone. *)
Lemma inv_frame st st' id r' :
  server_inv st ->
  (forall r, requests st !! id = Some r -> phase r <> Done) ->
  requests st' = <[id := r']> (requests st) ->
  (forall id', id' <> id -> activeJobs st' !! id' = activeJobs st !! id') ->
  (forall id', id' <> id ->
     (tempDir id' ∈ tempDirs st' <-> tempDir id' ∈ tempDirs st)) ->
  req_ok (activeJobs st') (tempDirs st') id r' ->
  (forall t, t ∈ timers st' ->
     t ∈ timers st \/ (snd t = id /\ phase r' = Done)) ->
  server_inv st'.
Proof.
  intros [I1 I2 I3] Harmed Hreq Hreg Hdirs Hok Htim. split.
  - intros id' r. rewrite Hreq. destruct (decide (id' = id)) as [->|Hne].
    + rewrite lookup_insert_eq. by intros [= <-].
    + rewrite lookup_insert_ne by done. intros H.
      eapply req_ok_ext; [by apply Hreg | by apply Hdirs | by apply I1].
  - intros id'. rewrite Hreq. destruct (decide (id' = id)) as [->|Hne].
    + rewrite lookup_insert_eq. eauto.
    + rewrite lookup_insert_ne by done. rewrite Hreg by done. apply I2.
  - intros t Ht. rewrite Hreq. destruct (Htim t Ht) as [Hold|[-> Hd]].
    + destruct (I3 t Hold) as (r & Hr & Hph).
      destruct (decide (snd t = id)) as [Heq|Hne].
      * rewrite Heq in Hr. by destruct (Harmed r Hr).
      * rewrite lookup_insert_ne by done. eauto.
    + rewrite lookup_insert_eq. eauto.
Qed.

Lemma in_phase_inv ph id h st :
  (forall r, requests st !! id = Some r -> phase r = ph ->
             server_inv (h r st)) ->
  server_inv st -> server_inv (in_phase ph id h st).
Proof.
  intros Hh Hst. unfold in_phase.
  destruct (requests st !! id) as [r|] eqn:Hr; [|exact Hst].
  destruct ph, (phase r) eqn:Hp; auto.
Qed.

Lemma armed_not_done st id r :
  requests st !! id = Some r -> phase r <> Done ->
  forall r0, requests st !! id = Some r0 -> phase r0 <> Done.
Proof. intros Hr Hp r0 Hr0. congruence. Qed.

Lemma progress_within_0 jb b :
  progress jb = Some (Fin 0) -> (0 <= b)%Q -> progress_within jb b.
Proof.
  intros H Hb. exists 0%Q. repeat split; auto. apply Qle_refl.
Qed.

Lemma stdout_data_inv st id output r :
  server_inv st -> requests st !! id = Some r -> phase r = Running ->
  server_inv (stdout_data id output r st).
Proof.
  intros Hst Hr Hp. pose proof (inv_requests st Hst id r Hr) as Hok.
  unfold req_ok in Hok. rewrite Hp in Hok.
  unfold stdout_data.
  destruct (re_match re_download output) as [m|] eqn:Hm.
  - eapply (inv_frame st _ id); srv_simpl;
      [exact Hst | eapply armed_not_done; [exact Hr | congruence]
      | reflexivity | | | | ].
    + intros id' Hne. by rewrite lookup_insert_ne.
    + tauto.
    + unfold req_ok. srv_simpl. rewrite Hp. rewrite lookup_insert_eq.
      eexists; split; [reflexivity|]. split.
      * right. apply jobUpdate_status.
      * destruct (download_capture_parses _ _ Hm) as (q & Hq & Hq0).
        exists (Qmin q 99). rewrite jobUpdate_progress, Hq. simpl.
        repeat split.
        -- apply Q.min_glb; [exact Hq0 | discriminate].
        -- apply Q.le_min_r.
    + auto.
  - eapply (inv_frame st _ id); srv_simpl;
      [exact Hst | eapply armed_not_done; [exact Hr | congruence]
      | reflexivity | | | | ]; auto; try tauto.
    unfold req_ok. srv_simpl. rewrite Hp. exact Hok.
Qed.

Lemma close_handler_inv st id c r :
  server_inv st -> requests st !! id = Some r -> phase r = Running ->
  server_inv (close_handler id c r st).
Proof.
  intros Hst Hr Hp. pose proof (inv_requests st Hst id r Hr) as Hok.
  unfold req_ok in Hok. rewrite Hp in Hok.
  destruct Hok as (jb & Hjb & Hstat & Hprog).
  assert (Hfail : server_inv
    (cleanup id
       (with_requests
          (insert id (mkRequest (downloadedFile r) Done
             (if headersSent (res r) then res r
              else ResJson 500 DownloadFailed)))
          (update_and_broadcast id
             (fun jb => set_error (ErrExit c)
                (set_stage StageDownloadFailed (set_status Failed jb)))
             st)))).
  { eapply (inv_frame st _ id); srv_simpl;
      [exact Hst | eapply armed_not_done; [exact Hr | congruence]
      | reflexivity | | | | ].
    - intros id' Hne. unfold registry_update. by rewrite lookup_insert_ne.
    - intros id' Hne. rewrite fs_rm_elem. split; [tauto|].
      intros H; split; [exact H|]. intros E. by apply tempDir_inj in E.
    - unfold req_ok. srv_simpl. split.
      + rewrite fs_rm_elem. tauto.
      + unfold registry_update. rewrite lookup_insert_eq, Hjb.
        intros jb' [= <-]. right; left. split; [reflexivity|exact Hprog].
    - auto. }
  unfold close_handler.
  destruct c as [[| |]|]; try exact Hfail.
  destruct (file_truthy (downloadedFile r)); [|exact Hfail].
  eapply (inv_frame st _ id); srv_simpl;
    [exact Hst | eapply armed_not_done; [exact Hr | congruence]
    | reflexivity | | | | ].
  - intros id' Hne. unfold registry_update. by rewrite lookup_insert_ne.
  - tauto.
  - unfold req_ok. srv_simpl. unfold registry_update.
    rewrite lookup_insert_eq. eexists; split; [reflexivity|].
    split; reflexivity.
  - auto.
Qed.

Lemma stat_result_inv st id n r :
  server_inv st -> requests st !! id = Some r -> phase r = AwaitStat ->
  server_inv (stat_result id n r st).
Proof.
  intros Hst Hr Hp. pose proof (inv_requests st Hst id r Hr) as Hok.
  unfold req_ok in Hok. rewrite Hp in Hok.
  destruct Hok as (jb & Hjb & Hstat & Hprog).
  unfold stat_result. destruct n as [n|].
  - eapply (inv_frame st _ id); srv_simpl;
      [exact Hst | eapply armed_not_done; [exact Hr | congruence]
      | reflexivity | | | | ]; auto; try tauto.
    unfold req_ok. srv_simpl. eauto.
  - eapply (inv_frame st _ id); srv_simpl;
      [exact Hst | eapply armed_not_done; [exact Hr | congruence]
      | reflexivity | | | | ]; auto.
    + intros id' Hne. rewrite fs_rm_elem. split; [tauto|].
      intros H; split; [exact H|]. intros E. by apply tempDir_inj in E.
    + unfold req_ok. srv_simpl. split.
      * rewrite fs_rm_elem. tauto.
      * rewrite Hjb. intros jb' [= <-]. right; right. auto.
Qed.

Lemma stream_end_inv st id r :
  server_inv st -> requests st !! id = Some r -> phase r = Piping ->
  server_inv (stream_end id r st).
Proof.
  intros Hst Hr Hp. unfold stream_end.
  eapply (inv_frame st _ id); srv_simpl;
    [exact Hst | eapply armed_not_done; [exact Hr | congruence]
    | reflexivity | | | | ].
  - intros id' Hne. unfold registry_update. by rewrite lookup_insert_ne.
  - intros id' Hne. rewrite fs_rm_elem. split; [tauto|].
    intros H; split; [exact H|]. intros E. by apply tempDir_inj in E.
  - unfold req_ok. srv_simpl. split.
    + rewrite fs_rm_elem. tauto.
    + unfold registry_update. rewrite lookup_insert_eq.
      intros jb' [= <-]. left. split; reflexivity.
  - intros t Ht. apply elem_of_app in Ht as [Ht|Ht]; [by left|].
    apply list_elem_of_singleton in Ht as ->. right. split; reflexivity.
Qed.

Lemma stream_error_inv st id r :
  server_inv st -> requests st !! id = Some r -> phase r = Piping ->
  server_inv (stream_error id r st).
Proof.
  intros Hst Hr Hp. pose proof (inv_requests st Hst id r Hr) as Hok.
  unfold req_ok in Hok. rewrite Hp in Hok.
  destruct Hok as (jb & Hjb & Hstat & Hprog).
  unfold stream_error.
  eapply (inv_frame st _ id); srv_simpl;
    [exact Hst | eapply armed_not_done; [exact Hr | congruence]
    | reflexivity | | | | ]; auto.
  - intros id' Hne. rewrite fs_rm_elem. split; [tauto|].
    intros H; split; [exact H|]. intros E. by apply tempDir_inj in E.
  - unfold req_ok. srv_simpl. split.
    + rewrite fs_rm_elem. tauto.
    + rewrite Hjb. intros jb' [= <-]. right; right. auto.
Qed.

Lemma post_catch_inv st st1 id msg :
  server_inv st -> requests st !! id = None ->
  requests st1 = requests st -> timers st1 = timers st ->
  (forall id', id' <> id -> activeJobs st1 !! id' = activeJobs st !! id') ->
  (forall id', id' <> id ->
     (tempDir id' ∈ tempDirs st1 <-> tempDir id' ∈ tempDirs st)) ->
  (exists jb, activeJobs st1 !! id = Some jb /\
              progress jb = Some (Fin 0)) ->
  server_inv (post_catch id msg st1).
Proof.
  intros Hst Hfresh Hreq Htim Hreg Hdirs (jb & Hjb & Hprog).
  unfold post_catch.
  eapply (inv_frame st _ id); srv_simpl;
    [exact Hst | intros r0; by rewrite Hfresh
    | by rewrite Hreq | | | | ].
  - intros id' Hne. unfold registry_update.
    rewrite lookup_insert_ne by done. by apply Hreg.
  - intros id' Hne. rewrite fs_rm_elem, Hdirs by done. split; [tauto|].
    intros H; split; [exact H|]. intros E. by apply tempDir_inj in E.
  - unfold req_ok. srv_simpl. split.
    + rewrite fs_rm_elem. tauto.
    + unfold registry_update. rewrite lookup_insert_eq, Hjb.
      intros jb' [= <-]. right; left. split; [reflexivity|].
      apply progress_within_0; [exact Hprog | discriminate].
  - rewrite Htim. auto.
Qed.

Lemma fs_mkdir_elem d dirs p : p ∈ fs_mkdir d dirs <-> p = d \/ p ∈ dirs.
Proof. unfold fs_mkdir. rewrite elem_of_union, elem_of_singleton. tauto. Qed.

Lemma post_download_inv st id u f me se :
  server_inv st -> requests st !! id = None ->
  server_inv (fst (post_download id u f me se st)).
Proof.
  intros Hst Hfresh. unfold post_download.
  destruct (truthy u); [|exact Hst]. cbn [negb].
  destruct me as [msg|]; [|destruct se as [msg|]]; cbn [fst].
  - eapply (post_catch_inv st); srv_simpl;
      [exact Hst | exact Hfresh | reflexivity | reflexivity | | | ].
    + intros id' Hne. by rewrite lookup_insert_ne.
    + tauto.
    + rewrite lookup_insert_eq. eauto.
  - eapply (post_catch_inv st); srv_simpl;
      [exact Hst | exact Hfresh | reflexivity | reflexivity | | | ].
    + intros id' Hne. by rewrite lookup_insert_ne.
    + intros id' Hne. rewrite fs_mkdir_elem. split; [|tauto].
      intros [E|H]; [|exact H]. by apply tempDir_inj in E.
    + rewrite lookup_insert_eq. eauto.
  - eapply (inv_frame st _ id); srv_simpl;
      [exact Hst | intros r0; by rewrite Hfresh | reflexivity | | | | ].
    + intros id' Hne. by rewrite lookup_insert_ne.
    + intros id' Hne. rewrite fs_mkdir_elem. split; [|tauto].
      intros [E|H]; [|exact H]. by apply tempDir_inj in E.
    + unfold req_ok. srv_simpl. rewrite lookup_insert_eq.
      eexists; split; [reflexivity|]. split; [by left|].
      apply progress_within_0; [reflexivity | discriminate].
    + auto.
Qed.

Lemma lookup_foldr_delete (l : list (N * string)) (reg : gmap string job) id :
  (foldr (fun t reg => delete (snd t) reg) reg l !! id = reg !! id /\
   Forall (fun t => snd t <> id) l) \/
  (foldr (fun t reg => delete (snd t) reg) reg l !! id = None /\
   Exists (fun t => snd t = id) l).
Proof.
  induction l as [|t l IH]; simpl.
  - left. split; [reflexivity | constructor].
  - destruct (decide (snd t = id)) as [E|Hne].
    + right. split; [subst id; apply lookup_delete_eq | by left].
    + rewrite lookup_delete_ne by done.
      destruct IH as [[H1 H2]|[H1 H2]]; [left|right]; split; auto.
Qed.

Lemma tick_inv st dt : server_inv st -> server_inv (tick dt st).
Proof.
  intros [I1 I2 I3]. unfold tick. split; srv_simpl.
  - intros id r Hr. specialize (I1 id r Hr).
    destruct (lookup_foldr_delete
                (filter (fun t => due (clock st + dt) t = true) (timers st))
                (activeJobs st) id) as [[Hl _]|[Hl Hex]].
    + eapply req_ok_ext; [exact Hl | reflexivity | exact I1].
    + apply Exists_exists in Hex as (t & Ht & Hid).
      apply list_elem_of_filter in Ht as [_ Ht].
      destruct (I3 t Ht) as (r' & Hr' & Hp). rewrite Hid, Hr in Hr'.
      injection Hr' as <-. unfold req_ok in *. rewrite Hp in *.
      destruct I1 as [Hd _]. split; [exact Hd|]. rewrite Hl. discriminate.
  - intros id Hs. apply I2.
    destruct (lookup_foldr_delete
                (filter (fun t => due (clock st + dt) t = true) (timers st))
                (activeJobs st) id) as [[Hl _]|[Hl _]]; rewrite Hl in Hs;
      [exact Hs | by destruct Hs].
  - intros t Ht. apply list_elem_of_filter in Ht as [_ Ht]. by apply I3.
Qed.

Lemma step_inv st ev : server_inv st -> server_inv (step st ev).
Proof.
  intros Hst. destruct ev; cbn [step].
  - destruct (truthy body_url) eqn:Hu; cbn [negb orb].
    + unfold fresh. case_bool_decide as Hf; [|exact Hst].
      by apply post_download_inv.
    + unfold post_download. rewrite Hu. exact Hst.
  - apply in_phase_inv; [|exact Hst]. intros; by apply stdout_data_inv.
  - exact Hst.
  - apply in_phase_inv; [|exact Hst]. intros; by apply close_handler_inv.
  - apply in_phase_inv; [|exact Hst]. intros; by apply stat_result_inv.
  - apply in_phase_inv; [|exact Hst]. intros; by apply stream_end_inv.
  - apply in_phase_inv; [|exact Hst]. intros; by apply stream_error_inv.
  - by apply tick_inv.
  - destruct Hst as [I1 I2 I3]. split; auto.
  - destruct Hst as [I1 I2 I3]. split; auto.
  - destruct Hst as [I1 I2 I3]. split; auto.
Qed.

Lemma run_inv evs : forall st, server_inv st -> server_inv (run st evs).
Proof.
  induction evs as [|ev evs IH]; intros st Hst; [exact Hst|].
  apply IH. by apply step_inv.
Qed.

(** ** Progress values in reachable states *)

(** C1 fails as stated: while the status is [downloading] the recorded
    progress follows the last percentage read, so a second stream restarting
    at a lower percentage lowers it. *)
Lemma C1_progress_regresses :
  ~ (forall (evs : list event) (id output : string) (jb jb' : job) (q q' : Q),
       activeJobs (run init_server evs) !! id = Some jb ->
       status jb = Some Downloading ->
       progress jb = Some (Fin q) ->
       activeJobs (step (run init_server evs) (EStdout id output)) !! id
         = Some jb' ->
       progress jb' = Some (Fin q') ->
       (q <= q')%Q).
Proof.
  intros H.
  specialize (H [EPost "j" (JStr "https://example.org/v") JUndef None None;
                 EStdout "j" "[download]  50.0% of 10.00MiB"]
                "j" "[download]  10.0% of 3.00MiB").
  vm_compute in H.
  specialize (H _ _ 50%Q 10%Q eq_refl eq_refl eq_refl eq_refl eq_refl).
  apply H. reflexivity.
Qed.

(** C1, amended: in every reachable state the progress recorded for a job is
    a number between 0 and 100, it is at most 99 whenever the status is
    [downloading], and it equals 100 only when the status is [streaming] or
    [completed]. *)
Theorem C1_progress_clamped (evs : list event) (id : string) (jb : job) :
  activeJobs (run init_server evs) !! id = Some jb ->
  exists q, progress jb = Some (Fin q) /\
    (0 <= q)%Q /\ (q <= 100)%Q /\
    (status jb = Some Downloading -> (q <= 99)%Q) /\
    ((q == 100)%Q ->
       status jb = Some Streaming \/ status jb = Some Completed).
Proof.
  intros Hjb.
  pose proof (run_inv evs init_server init_server_inv) as Hinv.
  destruct (inv_owner _ Hinv id (mk_is_Some _ _ Hjb)) as [r Hr].
  pose proof (inv_requests _ Hinv id r Hr) as Hok. unfold req_ok in Hok.
  assert (Hlow : forall j : job, progress_within j 99 ->
            exists q, progress j = Some (Fin q) /\
              (0 <= q)%Q /\ (q <= 100)%Q /\
              (status j = Some Downloading -> (q <= 99)%Q) /\
              ((q == 100)%Q ->
                 status j = Some Streaming \/ status j = Some Completed)).
  { intros j (q & Hq & H0 & H99). exists q. repeat split; auto.
    - eapply Qle_trans; [exact H99 | discriminate].
    - intros E. rewrite E in H99. exfalso. by apply H99. }
  assert (Hfull : forall j : job, progress j = Some (Fin 100) ->
            status j = Some Streaming \/ status j = Some Completed ->
            exists q, progress j = Some (Fin q) /\
              (0 <= q)%Q /\ (q <= 100)%Q /\
              (status j = Some Downloading -> (q <= 99)%Q) /\
              ((q == 100)%Q ->
                 status j = Some Streaming \/ status j = Some Completed)).
  { intros j Hq Hs. exists 100%Q. repeat split; auto; try discriminate.
    intros Hd. destruct Hs as [Hs|Hs]; congruence. }
  destruct (phase r).
  - destruct Hok as (jb0 & Hjb0 & _ & Hp). rewrite Hjb in Hjb0.
    injection Hjb0 as <-. by apply Hlow.
  - destruct Hok as (jb0 & Hjb0 & Hs & Hp). rewrite Hjb in Hjb0.
    injection Hjb0 as <-. apply Hfull; auto.
  - destruct Hok as (jb0 & Hjb0 & Hs & Hp). rewrite Hjb in Hjb0.
    injection Hjb0 as <-. apply Hfull; auto.
  - destruct Hok as [_ Hok].
    destruct (Hok jb Hjb) as [[Hs Hp]|[[Hs Hp]|[Hs Hp]]].
    + apply Hfull; auto.
    + by apply Hlow.
    + apply Hfull; auto.
Qed.

Lemma C1_progress_clamped_witness :
  exists q, Some (Fin 99) = Some (Fin q) /\
    (0 <= q)%Q /\ (q <= 100)%Q /\
    (Some Downloading = Some Downloading -> (q <= 99)%Q) /\
    ((q == 100)%Q ->
       Some Downloading = Some Streaming \/ Some Downloading = Some Completed).
Proof.
  apply (C1_progress_clamped two_lines "j"
           (mkJob (Some "j") (Some Downloading) (Some (Fin 99))
              (Some (StageDownloading (Fin 100)))
              (Some (JStr "https://example.org/v")) (Some JUndef)
              (Some "50.00MiB") (Some "00:30") None)).
  vm_compute. reflexivity.
Defined.

(** ** The two-line scenario *)

(** C2 fails as stated: when the process prints exactly the two progress
    lines, no destination or merger line has announced a file, so the close
    handler takes its failure branch although the exit code is zero; the job
    never reaches [streaming] or [completed]. *)
Lemma C2_two_lines_end_failed :
  statuses (snapshots "j" init_server
              (two_lines ++ [EClose "j" (Some 0); EStat "j" (Some 52428800%N);
                             EStreamEnd "j"]))
  = [Some Initializing; Some Downloading; Some Downloading;
     Some Failed; Some Failed; Some Failed].
Proof. vm_compute. reflexivity. Qed.

(** C2, amended: when a destination line announces the file before the two
    progress lines, and the process then exits with code zero, the file is
    found and its stream ends, the registry entry of the job is, after each
    event in turn: initializing (request accepted), initializing (the
    destination line changes nothing), downloading with progress 10,
    totalSize 50.00MiB and eta 00:30, downloading with progress 99 and the
    size and eta kept, streaming with progress 100 (twice: set by the close
    handler and untouched when the file is found), completed with progress
    100. *)
Theorem C2_announced_trace (size : N) :
  snapshots "j" init_server (announced_then_two_lines size) =
  [Some job_initializing;
   Some job_initializing;
   Some job_downloading_10;
   Some job_downloading_99;
   Some (set_stage StageSending
           (set_progress (Fin 100) (set_status Streaming job_downloading_99)));
   Some (set_stage StageSending
           (set_progress (Fin 100) (set_status Streaming job_downloading_99)));
   Some (set_stage StageComplete
           (set_progress (Fin 100)
              (set_status Completed job_downloading_99)))].
Proof. vm_compute. reflexivity. Qed.

(** ** Failure while the file is streamed *)

(** C3, the behaviour of the code: a stream error on a job that is being
    streamed removes the temporary directory but leaves the registry as it
    was, so the job stays [streaming] with progress 100 instead of becoming
    [failed]. *)
Theorem C3_stream_error_keeps_streaming (evs : list event) (id : string)
    (r : request) :
  let st := run init_server evs in
  requests st !! id = Some r -> phase r = Piping ->
  let st' := step st (EStreamError id) in
  activeJobs st' = activeJobs st /\
  clients st' = clients st /\
  (exists jb, activeJobs st' !! id = Some jb /\
              status jb = Some Streaming /\ progress jb = Some (Fin 100)) /\
  tempDir id ∉ tempDirs st'.
Proof.
  intros st Hr Hp.
  pose proof (run_inv evs init_server init_server_inv) as Hinv.
  fold st in Hinv. cbn [step]. unfold in_phase. rewrite Hr, Hp.
  unfold stream_error. srv_simpl. repeat split.
  - pose proof (inv_requests _ Hinv id r Hr) as Hok. unfold req_ok in Hok.
    by rewrite Hp in Hok.
  - rewrite fs_rm_elem. tauto.
Qed.

Lemma C3_stream_error_keeps_streaming_witness :
  let st := run init_server streaming_job_events in
  let st' := step st (EStreamError "j") in
  activeJobs st' = activeJobs st /\
  clients st' = clients st /\
  (exists jb, activeJobs st' !! "j" = Some jb /\
              status jb = Some Streaming /\ progress jb = Some (Fin 100)) /\
  tempDir "j" ∉ tempDirs st'.
Proof.
  apply (C3_stream_error_keeps_streaming streaming_job_events "j"
           (mkRequest (Some "temp/j/clip.mp4") Piping
              (ResFile "temp/j/clip.mp4" 52428800))).
  - vm_compute. reflexivity.
  - reflexivity.
Defined.

(** ** Retention of finished jobs *)

Lemma in_phase_done ph id h st r :
  requests st !! id = Some r -> phase r = Done -> in_phase ph id h st = st.
Proof. intros Hr Hp. unfold in_phase. rewrite Hr, Hp. by destruct ph. Qed.

Lemma in_phase_cases ph id h st :
  in_phase ph id h st = st \/
  exists r, requests st !! id = Some r /\ in_phase ph id h st = h r st.
Proof.
  unfold in_phase. destruct (requests st !! id) as [r|]; [|by left].
  destruct ph, (phase r); eauto.
Qed.

Lemma untouched_refl id st : untouched id st st.
Proof. repeat split; auto. Qed.

Lemma post_catch_untouched id id' msg st :
  id' <> id -> untouched id st (post_catch id' msg st).
Proof.
  intros Hne. unfold post_catch, untouched. srv_simpl.
  unfold registry_update. rewrite !lookup_insert_ne by done. auto.
Qed.

Lemma untouched_trans id st1 st2 st3 :
  untouched id st1 st2 -> untouched id st2 st3 -> untouched id st1 st3.
Proof.
  intros (A1 & A2 & A3 & A4 & A5) (B1 & B2 & B3 & B4 & B5).
  repeat split; try congruence; auto.
Qed.

Lemma handler_untouched id id' st ev :
  id' <> id ->
  match ev with
  | EPost i _ _ _ _ | EStdout i _ | EStderr i _ | EClose i _ | EStat i _
  | EStreamEnd i | EStreamError i => i = id'
  | _ => False
  end ->
  untouched id st (step st ev).
Proof.
  intros Hne Hev.
  destruct ev; try (exfalso; exact Hev); subst id0; cbn [step].
  - destruct (negb (truthy body_url) || fresh id' st); [|apply untouched_refl].
    unfold post_download.
    destruct (negb (truthy body_url)); [apply untouched_refl|].
    destruct mkdir_err; [|destruct spawn_err]; cbn [fst].
    + eapply untouched_trans; [|by apply post_catch_untouched].
      unfold untouched. srv_simpl. rewrite lookup_insert_ne by done. auto.
    + eapply untouched_trans; [|by apply post_catch_untouched].
      unfold untouched. srv_simpl. rewrite lookup_insert_ne by done. auto.
    + unfold untouched. srv_simpl. rewrite !lookup_insert_ne by done. auto.
  - destruct (in_phase_cases Running id' (stdout_data id' output) st)
      as [->|(r & _ & ->)]; [apply untouched_refl|].
    unfold stdout_data, untouched.
    destruct (re_match re_download output); srv_simpl;
      rewrite ?lookup_insert_ne by done; auto.
  - apply untouched_refl.
  - destruct (in_phase_cases Running id' (close_handler id' exit_code) st)
      as [->|(r & _ & ->)]; [apply untouched_refl|].
    unfold close_handler, untouched.
    destruct exit_code as [[| |]|]; try destruct (file_truthy _); srv_simpl;
      unfold registry_update; rewrite ?lookup_insert_ne by done; auto.
  - destruct (in_phase_cases AwaitStat id' (stat_result id' size) st)
      as [->|(r & _ & ->)]; [apply untouched_refl|].
    unfold stat_result, untouched.
    destruct size; srv_simpl; rewrite ?lookup_insert_ne by done; auto.
  - destruct (in_phase_cases Piping id' (stream_end id') st)
      as [->|(r & _ & ->)]; [apply untouched_refl|].
    unfold stream_end, untouched. srv_simpl. unfold registry_update.
    rewrite !lookup_insert_ne by done. repeat split; auto.
    + intros t Ht Hid. apply elem_of_app in Ht as [Ht|Ht]; [exact Ht|].
      apply list_elem_of_singleton in Ht as ->. simpl in Hid. congruence.
    + intros t Ht. apply elem_of_app. by left.
  - destruct (in_phase_cases Piping id' (stream_error id') st)
      as [->|(r & _ & ->)]; [apply untouched_refl|].
    unfold stream_error, untouched. srv_simpl.
    rewrite !lookup_insert_ne by done. auto.
Qed.

(** A finished request with no pending timer keeps its registry entry
    through any further event. *)
Lemma done_without_timer_step st id r ev :
  requests st !! id = Some r -> phase r = Done ->
  (forall t, t ∈ timers st -> snd t <> id) ->
  requests (step st ev) !! id = Some r /\
  activeJobs (step st ev) !! id = activeJobs st !! id /\
  (forall t, t ∈ timers (step st ev) -> snd t <> id).
Proof.
  intros Hr Hp Ht.
  assert (Hun : forall st', untouched id st st' ->
            requests st' !! id = Some r /\
            activeJobs st' !! id = activeJobs st !! id /\
            (forall t, t ∈ timers st' -> snd t <> id)).
  { intros st' (A1 & A2 & A3 & _ & _). repeat split; try congruence.
    intros t Ht' Hid. by apply (Ht t (A3 t Ht' Hid)). }
  destruct ev; try (destruct (decide (id0 = id)) as [->|Hne];
    [|by (apply Hun, (handler_untouched id id0))]).
  - replace (step st (EPost id body_url body_format mkdir_err spawn_err))
      with st; [apply Hun, untouched_refl|].
    cbn [step]. unfold fresh.
    rewrite bool_decide_eq_false_2 by congruence.
    unfold post_download. by destruct (negb (truthy body_url)).
  - cbn [step]. erewrite in_phase_done by eassumption.
    apply Hun, untouched_refl.
  - apply Hun, untouched_refl.
  - cbn [step]. erewrite in_phase_done by eassumption.
    apply Hun, untouched_refl.
  - cbn [step]. erewrite in_phase_done by eassumption.
    apply Hun, untouched_refl.
  - cbn [step]. erewrite in_phase_done by eassumption.
    apply Hun, untouched_refl.
  - cbn [step]. erewrite in_phase_done by eassumption.
    apply Hun, untouched_refl.
  - cbn [step]. unfold tick. srv_simpl. repeat split; [exact Hr| |].
    + destruct (lookup_foldr_delete
                  (filter (fun t => due (clock st + dt) t = true) (timers st))
                  (activeJobs st) id) as [[Hl _]|[_ Hex]]; [exact Hl|].
      apply Exists_exists in Hex as (t & Hin & Hid).
      apply list_elem_of_filter in Hin as [_ Hin]. by destruct (Ht t Hin).
    + intros t Hin. apply list_elem_of_filter in Hin as [_ Hin]. by apply Ht.
  - apply Hun. repeat split; auto.
  - apply Hun. repeat split; auto.
  - apply Hun. repeat split; auto.
Qed.

Lemma done_without_timer_run evs : forall st id r,
  requests st !! id = Some r -> phase r = Done ->
  (forall t, t ∈ timers st -> snd t <> id) ->
  activeJobs (run st evs) !! id = activeJobs st !! id.
Proof.
  induction evs as [|ev evs IH]; intros st id r Hr Hp Ht; [reflexivity|].
  destruct (done_without_timer_step st id r ev Hr Hp Ht) as (A & B & C).
  cbn [run fold_left]. change (fold_left step evs (step st ev))
    with (run (step st ev) evs).
  rewrite (IH _ _ _ A Hp C). exact B.
Qed.

Lemma close_handler_failure id c r st :
  c <> Some 0 \/ file_truthy (downloadedFile r) = None ->
  close_handler id c r st =
  cleanup id
    (with_requests
       (insert id (mkRequest (downloadedFile r) Done
          (if headersSent (res r) then res r else ResJson 500 DownloadFailed)))
       (update_and_broadcast id
          (fun jb => set_error (ErrExit c)
             (set_stage StageDownloadFailed (set_status Failed jb))) st)).
Proof.
  intros H. unfold close_handler.
  destruct c as [[| |]|]; try reflexivity.
  destruct (file_truthy (downloadedFile r)); [|reflexivity].
  by destruct H.
Qed.

(** C4, the behaviour of the code: a job that fails when its process closes
    (non-zero exit code, or no file announced) gets no eviction timer; its
    registry entry stays, with status [failed], through every later event,
    however far the clock advances. *)
Theorem C4_failed_job_never_evicted (evs later : list event) (id : string)
    (r : request) (c : option Z) :
  let st := run init_server evs in
  requests st !! id = Some r -> phase r = Running ->
  c <> Some 0 \/ file_truthy (downloadedFile r) = None ->
  exists jb,
    activeJobs (run (step st (EClose id c)) later) !! id = Some jb /\
    status jb = Some Failed.
Proof.
  intros st Hr Hp Hc.
  pose proof (run_inv evs init_server init_server_inv) as Hinv. fold st in Hinv.
  assert (Hstep : step st (EClose id c) = close_handler id c r st).
  { cbn [step]. unfold in_phase. by rewrite Hr, Hp. }
  rewrite Hstep, close_handler_failure by exact Hc.
  erewrite done_without_timer_run.
  - srv_simpl. unfold registry_update. rewrite lookup_insert_eq.
    eexists. split; reflexivity.
  - srv_simpl. apply lookup_insert_eq.
  - reflexivity.
  - srv_simpl. intros t Ht Hid.
    destruct (inv_timers _ Hinv t Ht) as (r' & Hr' & Hp').
    rewrite Hid, Hr in Hr'. congruence.
Qed.

Lemma C4_failed_job_never_evicted_witness :
  exists jb,
    activeJobs
      (run (step (run init_server
                    [EPost "j" (JStr "https://example.org/v") JUndef
                       None None])
              (EClose "j" (Some 1)))
         [ETick 300001; ETick 86400000]) !! "j" = Some jb /\
    status jb = Some Failed.
Proof.
  apply (C4_failed_job_never_evicted
           [EPost "j" (JStr "https://example.org/v") JUndef None None]
           [ETick 300001; ETick 86400000] "j"
           (mkRequest None Running ResPending) (Some 1)).
  - vm_compute. reflexivity.
  - reflexivity.
  - left. discriminate.
Defined.

(** ** Updating an unknown identifier *)

(** C5 fails as stated: the update idiom spreads [undefined] into an empty
    object and stores the result, so an update for an unknown identifier adds
    an entry. *)
Lemma C5_update_unknown_adds_entry :
  registry_update "ghost" (set_status Failed) ∅ !! "ghost"
    = Some (set_status Failed empty_job) /\
  registry_update "ghost" (set_status Failed) ∅ <> ∅.
Proof.
  split.
  - unfold registry_update. apply lookup_insert_eq.
  - unfold registry_update. apply insert_non_empty.
Qed.

(** C5, amended: a registry update for an identifier that is not present
    stores a new entry made of the fields of the patch alone, and leaves every
    other entry as it was. *)
Theorem C5_update_unknown (reg : gmap string job) (id : string)
    (patch : job -> job) :
  reg !! id = None ->
  registry_update id patch reg !! id = Some (patch empty_job) /\
  (forall id', id' <> id -> registry_update id patch reg !! id' = reg !! id').
Proof.
  intros Hid. unfold registry_update. rewrite Hid. split.
  - apply lookup_insert_eq.
  - intros id' Hne. by apply lookup_insert_ne.
Qed.

Lemma C5_update_unknown_witness :
  registry_update "ghost" (set_status Failed) ∅ !! "ghost"
    = Some (set_status Failed empty_job) /\
  (forall id', id' <> "ghost" ->
     registry_update "ghost" (set_status Failed) (∅ : gmap string job) !! id'
       = (∅ : gmap string job) !! id').
Proof.
  apply (C5_update_unknown ∅ "ghost" (set_status Failed)).
  reflexivity.
Defined.

(** ** What a chunk updates *)

(** C6 fails as stated: the size and ETA patterns are consulted only inside
    the branch taken when the percentage pattern matched, so a chunk that
    carries an ETA token but no percentage leaves the job, its [eta]
    included, as it was. *)
Lemma C6_eta_alone_ignored :
  let st := run init_server
              [EPost "j" (JStr "https://example.org/v") JUndef None None] in
  re_match re_eta "ETA 00:30" = Some "00:30" /\
  activeJobs (step st (EStdout "j" "ETA 00:30")) = activeJobs st /\
  (activeJobs (step st (EStdout "j" "ETA 00:30")) !! "j") ≫= eta = None.
Proof. vm_compute. repeat split; reflexivity. Qed.

(** C6, amended: for every chunk delivered while the process runs, the
    announced file is updated from the destination and merger patterns alone
    (a merger path superseding a destination path); when the percentage
    pattern does not match, the registry and the clients are left unchanged
    whatever else the chunk carries; when it matches, the entry of the job
    gets status [downloading], the clamped percentage and the stage label,
    [totalSize] and [eta] are replaced exactly when their own pattern matches,
    every other attribute and every other job is kept. *)
Theorem C6_chunk_updates (st : server) (id output : string) (r : request) :
  requests st !! id = Some r -> phase r = Running ->
  let st' := step st (EStdout id output) in
  let old := spread (activeJobs st !! id) in
  requests st' !! id
    = Some (mkRequest (announced_file output (downloadedFile r))
              Running (res r)) /\
  match re_match re_download output with
  | None => activeJobs st' = activeJobs st /\ clients st' = clients st
  | Some m =>
      (exists jb, activeJobs st' !! id = Some jb /\
         status jb = Some Downloading /\
         progress jb = Some (Math_min (parseFloat m) 99) /\
         stage jb = Some (StageDownloading (parseFloat m)) /\
         totalSize jb = match re_match re_size output with
                        | Some sz => Some sz
                        | None => totalSize old
                        end /\
         eta jb = match re_match re_eta output with
                  | Some e => Some e
                  | None => eta old
                  end /\
         jobId jb = jobId old /\ url jb = url old /\
         format_id jb = format_id old /\ error jb = error old) /\
      (forall id', id' <> id -> activeJobs st' !! id' = activeJobs st !! id')
  end.
Proof.
  intros Hr Hp. cbn [step]. unfold in_phase. rewrite Hr, Hp.
  unfold stdout_data.
  destruct (re_match re_download output) as [m|]; srv_simpl.
  - split; [rewrite lookup_insert_eq, Hp; reflexivity|]. split.
    + rewrite lookup_insert_eq. eexists. split; [reflexivity|].
      rewrite jobUpdate_status, jobUpdate_progress, jobUpdate_stage,
        jobUpdate_totalSize, jobUpdate_eta.
      destruct (jobUpdate_others m output (activeJobs st !! id))
        as (-> & -> & -> & ->).
      repeat split; reflexivity.
    + intros id' Hne. by apply lookup_insert_ne.
  - split; [rewrite lookup_insert_eq, Hp; reflexivity|]. split; reflexivity.
Qed.

Lemma C6_chunk_updates_witness :
  let st := run init_server
              [EPost "j" (JStr "https://example.org/v") JUndef None None] in
  let st' := step st (EStdout "j" "[download] 10.0% ETA 00:30") in
  let old := spread (activeJobs st !! "j") in
  requests st' !! "j"
    = Some (mkRequest
              (announced_file "[download] 10.0% ETA 00:30" None)
              Running ResPending) /\
  match re_match re_download "[download] 10.0% ETA 00:30" with
  | None => activeJobs st' = activeJobs st /\ clients st' = clients st
  | Some m =>
      (exists jb, activeJobs st' !! "j" = Some jb /\
         status jb = Some Downloading /\
         progress jb = Some (Math_min (parseFloat m) 99) /\
         stage jb = Some (StageDownloading (parseFloat m)) /\
         totalSize jb = match re_match re_size "[download] 10.0% ETA 00:30"
                        with
                        | Some sz => Some sz
                        | None => totalSize old
                        end /\
         eta jb = match re_match re_eta "[download] 10.0% ETA 00:30" with
                  | Some e => Some e
                  | None => eta old
                  end /\
         jobId jb = jobId old /\ url jb = url old /\
         format_id jb = format_id old /\ error jb = error old) /\
      (forall id', id' <> "j" -> activeJobs st' !! id' = activeJobs st !! id')
  end.
Proof.
  apply (C6_chunk_updates
           (run init_server
              [EPost "j" (JStr "https://example.org/v") JUndef None None])
           "j" "[download] 10.0% ETA 00:30"
           (mkRequest None Running ResPending)).
  - vm_compute. reflexivity.
  - reflexivity.
Defined.

(** ** Validation of the request body *)

(** C7 fails as stated: the only check is that [url] is truthy, so a
    malformed but non-empty URL is accepted, a job is registered and the
    external process is spawned with it. *)
Lemma C7_malformed_url_spawns :
  let out := post_download "j" (JStr "not a url") JUndef None None
               init_server in
  snd out = ResPending /\
  spawned (fst out) = [("j", JStr "not a url")] /\
  (activeJobs (fst out) !! "j") ≫= status = Some Initializing.
Proof. vm_compute. repeat split; reflexivity. Qed.

(** C7, amended: a request whose [url] is missing or falsy (undefined, null,
    the empty string, 0, false) is answered with status 400 before anything
    else happens: the server state is unchanged, so no job is registered, no
    directory is made and no process is spawned. *)
Theorem C7_missing_url_rejected (st : server) (id : string)
    (body_url body_format : jsval) (mkdir_err spawn_err : option string) :
  truthy body_url = false ->
  post_download id body_url body_format mkdir_err spawn_err st
    = (st, ResJson 400 MissingUrl).
Proof. intros H. unfold post_download. by rewrite H. Qed.

Lemma C7_missing_url_rejected_witness :
  post_download "j" JUndef (JStr "22") None None init_server
    = (init_server, ResJson 400 MissingUrl).
Proof.
  apply (C7_missing_url_rejected init_server "j" JUndef (JStr "22") None None).
  reflexivity.
Defined.

(** ** Cleanup of the temporary directory *)

Lemma cleanup_absent id st :
  tempDir id ∉ tempDirs st -> cleanup id st = st.
Proof.
  intros H. unfold cleanup, with_tempDirs, fs_rm.
  rewrite decide_False by exact H. by destruct st.
Qed.

(** C9: in every reachable state, a job whose status is [completed] or
    [failed] has no temporary directory left, whichever path led there; and
    running the cleanup again on that state reports no error and changes
    nothing. *)
Theorem C9_cleanup_on_terminal (evs : list event) (id : string) (jb : job) :
  let st := run init_server evs in
  activeJobs st !! id = Some jb ->
  status jb = Some Completed \/ status jb = Some Failed ->
  (tempDir id ∉ tempDirs st) /\
  fs_rm true (tempDir id) (tempDirs st) = (tempDirs st, None) /\
  cleanup id st = st /\
  cleanup id (cleanup id st) = cleanup id st.
Proof.
  intros st Hjb Hs.
  pose proof (run_inv evs init_server init_server_inv) as Hinv. fold st in Hinv.
  destruct (inv_owner _ Hinv id (mk_is_Some _ _ Hjb)) as [r Hr].
  pose proof (inv_requests _ Hinv id r Hr) as Hok. unfold req_ok in Hok.
  assert (Hd : tempDir id ∉ tempDirs st).
  { destruct (phase r).
    - destruct Hok as (jb0 & Hjb0 & [H|H] & _); rewrite Hjb in Hjb0;
        injection Hjb0 as <-; destruct Hs; congruence.
    - destruct Hok as (jb0 & Hjb0 & H & _); rewrite Hjb in Hjb0;
        injection Hjb0 as <-; destruct Hs; congruence.
    - destruct Hok as (jb0 & Hjb0 & H & _); rewrite Hjb in Hjb0;
        injection Hjb0 as <-; destruct Hs; congruence.
    - by destruct Hok. }
  split; [exact Hd|]. split; [|split].
  - unfold fs_rm. by rewrite decide_False by exact Hd.
  - by apply cleanup_absent.
  - by rewrite (cleanup_absent id st Hd), (cleanup_absent id st Hd).
Qed.

Lemma C9_cleanup_on_terminal_witness :
  let st := run init_server (announced_then_two_lines 52428800) in
  (tempDir "j" ∉ tempDirs st) /\
  fs_rm true (tempDir "j") (tempDirs st) = (tempDirs st, None) /\
  cleanup "j" st = st /\
  cleanup "j" (cleanup "j" st) = cleanup "j" st.
Proof.
  apply (C9_cleanup_on_terminal (announced_then_two_lines 52428800) "j"
           (set_stage StageComplete
              (set_progress (Fin 100)
                 (set_status Completed job_downloading_99)))).
  - vm_compute. reflexivity.
  - left. reflexivity.
Defined.

(** ** Subscriptions *)

Lemma broadcastProgress_lookup id payload cs i :
  broadcastProgress id payload cs !! i =
  (fun c => if client_open c && strict_eq_str (client_jobId c) id
            then send payload c else c) <$> cs !! i.
Proof. unfold broadcastProgress. apply list_lookup_fmap. Qed.

(** C10: a connection holds one subscription, the [jobId] property of its
    socket. After an open connection subscribed to some job sends a subscribe
    message for job [B], its subscription is [B]: every later broadcast for
    [B] is delivered to it, and a broadcast for any other job, the one it was
    subscribed to before included, is not. *)
Theorem C10_subscribe_replaces (st : server) (i : nat) (ws : client)
    (B : string) :
  clients st !! i = Some ws -> client_open ws = true -> B <> "" ->
  let st' := step st (EWsMessage i (MsgData (JStr "subscribe") (JStr B))) in
  let ws' := mkClient true (JStr B) (client_inbox ws) in
  clients st' !! i = Some ws' /\
  (forall payload,
     broadcastProgress B payload (clients st') !! i
       = Some (send payload ws')) /\
  (forall A payload, A <> B ->
     broadcastProgress A payload (clients st') !! i = Some ws').
Proof.
  intros Hws Hopen HB st' ws'.
  assert (Hi : clients st' !! i = Some ws').
  { subst st'. cbn [step]. srv_simpl. rewrite Hws, Hopen.
    rewrite list_lookup_insert_eq by (by eapply lookup_lt_Some).
    unfold on_message. cbn [strict_eq_str truthy].
    rewrite String.eqb_refl. cbn [andb].
    destruct (String.eqb_spec B ""); [done|]. cbn [negb].
    subst ws'. by rewrite Hopen. }
  split; [exact Hi|]. split.
  - intros payload. rewrite broadcastProgress_lookup, Hi. cbn.
    by rewrite String.eqb_refl.
  - intros A payload HA. rewrite broadcastProgress_lookup, Hi. cbn.
    destruct (String.eqb_spec B A); [congruence|reflexivity].
Qed.

Lemma C10_subscribe_replaces_witness :
  let st := run init_server
              [EWsConnect;
               EWsMessage 0 (MsgData (JStr "subscribe") (JStr "job-a"))] in
  let st' := step st (EWsMessage 0 (MsgData (JStr "subscribe")
                                      (JStr "job-b"))) in
  let ws' := mkClient true (JStr "job-b") [] in
  clients st' !! 0%nat = Some ws' /\
  (forall payload,
     broadcastProgress "job-b" payload (clients st') !! 0%nat
       = Some (send payload ws')) /\
  (forall A payload, A <> "job-b" ->
     broadcastProgress A payload (clients st') !! 0%nat = Some ws').
Proof.
  apply (C10_subscribe_replaces
           (run init_server
              [EWsConnect;
               EWsMessage 0 (MsgData (JStr "subscribe") (JStr "job-a"))])
           0 (mkClient true (JStr "job-a") []) "job-b").
  - vm_compute. reflexivity.
  - reflexivity.
  - discriminate.
Defined.

(** ** The queue gate *)

Lemma started_counts_app m e :
  omap (fun e => match e with EmStarted _ c _ => Some c | _ => None end)
       (emitted m ++ [e])%list
  = (started_counts m ++
     match e with EmStarted _ c _ => [c] | _ => [] end)%list.
Proof. unfold started_counts. rewrite omap_app. by destruct e. Qed.

Lemma size_insert_le (a : gmap string downloadJob) k v :
  (size (<[k := v]> a) <= S (size a))%nat.
Proof. rewrite map_size_insert. destruct (a !! k); simpl; lia. Qed.

Lemma size_delete_le (a : gmap string downloadJob) k :
  (size (delete k a) <= size a)%nat.
Proof. rewrite map_size_delete. destruct (a !! k); simpl; lia. Qed.

Lemma processQueue_limit m : within_limit m -> within_limit (processQueue m).
Proof.
  intros [Hs Hc]. unfold processQueue.
  destruct (Z.geb_spec (Z.of_nat (size (activeDownloads m)))
              (maxConcurrentDownloads m)) as [Hge|Hlt]; [by split|].
  destruct (queue m) as [|jb rest]; [by split|].
  pose proof (size_insert_le (activeDownloads m) (dj_jobId jb) jb).
  split; cbn [activeDownloads maxConcurrentDownloads]; [lia|].
  unfold started_counts at 1. cbn [emitted]. rewrite started_counts_app.
  apply Forall_app. split; [exact Hc|]. constructor; [lia|constructor].
Qed.

Lemma processQueue_max m :
  maxConcurrentDownloads (processQueue m) = maxConcurrentDownloads m.
Proof.
  unfold processQueue.
  destruct (_ >=? _); [reflexivity|]. by destruct (queue m).
Qed.

Lemma processQueue_fifo m :
  (started (processQueue m) ++ queue (processQueue m))%list
  = (started m ++ queue m)%list.
Proof.
  unfold processQueue.
  destruct (_ >=? _); [reflexivity|].
  destruct (queue m) as [|jb rest] eqn:E; [by rewrite E|].
  cbn [started queue]. by rewrite <- app_assoc.
Qed.

Lemma dm_step_limit m ev : within_limit m -> within_limit (dm_step m ev).
Proof.
  intros [Hs Hc]. destruct ev as [jb|i o]; cbn [dm_step].
  - unfold addToQueue. apply processQueue_limit.
    split; cbn [activeDownloads maxConcurrentDownloads]; [exact Hs|].
    unfold started_counts at 1. cbn [emitted]. rewrite started_counts_app.
    by rewrite app_nil_r.
  - unfold settle. destruct (executing m !! i) as [jb|]; [|by split].
    apply processQueue_limit.
    pose proof (size_delete_le (activeDownloads m) (dj_jobId jb)).
    split; cbn [activeDownloads maxConcurrentDownloads]; [lia|].
    unfold started_counts at 1. cbn [emitted]. rewrite started_counts_app.
    destruct o; by rewrite app_nil_r.
Qed.

Lemma dm_step_max m ev :
  maxConcurrentDownloads (dm_step m ev) = maxConcurrentDownloads m.
Proof.
  destruct ev as [jb|i o]; cbn [dm_step].
  - unfold addToQueue. by rewrite processQueue_max.
  - unfold settle. destruct (executing m !! i); [|reflexivity].
    by rewrite processQueue_max.
Qed.

Lemma dm_step_fifo m ev :
  (started (dm_step m ev) ++ queue (dm_step m ev))%list
  = (started m ++ queue m ++ enqueued [ev])%list.
Proof.
  destruct ev as [jb|i o]; cbn [dm_step enqueued omap].
  - unfold addToQueue. by rewrite processQueue_fifo.
  - rewrite app_nil_r. unfold settle.
    destruct (executing m !! i); [|reflexivity].
    by rewrite processQueue_fifo.
Qed.

Lemma enqueued_cons ev evs :
  enqueued (ev :: evs) = (enqueued [ev] ++ enqueued evs)%list.
Proof. by destruct ev. Qed.

Lemma dm_run_facts evs : forall m,
  within_limit m ->
  within_limit (dm_run m evs) /\
  maxConcurrentDownloads (dm_run m evs) = maxConcurrentDownloads m /\
  (started (dm_run m evs) ++ queue (dm_run m evs))%list
  = (started m ++ queue m ++ enqueued evs)%list.
Proof.
  induction evs as [|ev evs IH]; intros m Hm.
  - cbn. by rewrite app_nil_r.
  - destruct (IH (dm_step m ev) (dm_step_limit m ev Hm)) as (A & B & C).
    cbn [dm_run fold_left].
    change (fold_left dm_step evs (dm_step m ev))
      with (dm_run (dm_step m ev) evs).
    split; [exact A|]. split; [by rewrite B, dm_step_max|].
    rewrite C, app_assoc, dm_step_fifo.
    rewrite (enqueued_cons ev evs). by rewrite <- !app_assoc.
Qed.

Lemma dm_run_max evs m :
  maxConcurrentDownloads (dm_run m evs) = maxConcurrentDownloads m.
Proof.
  revert m. induction evs as [|ev evs IH]; intros m; [reflexivity|].
  cbn [dm_run fold_left]. change (fold_left dm_step evs (dm_step m ev))
    with (dm_run (dm_step m ev) evs).
  by rewrite IH, dm_step_max.
Qed.

Lemma new_manager_within_limit o :
  (forall n, o = Some n -> 0 <= n) -> within_limit (new_manager o).
Proof.
  intros Ho. split; [|constructor]. cbn. rewrite map_size_empty.
  destruct o as [n|]; [|lia]. specialize (Ho n eq_refl).
  destruct (Z.eqb_spec n 0); lia.
Qed.

Lemma gate_size_bound o evs :
  (forall n, o = Some n -> 0 <= n) ->
  Z.of_nat (size (activeDownloads (dm_run (new_manager o) evs)))
    <= maxConcurrentDownloads (new_manager o).
Proof.
  intros Ho.
  destruct (dm_run_facts evs _ (new_manager_within_limit o Ho))
    as ([A _] & B & _).
  by rewrite <- B.
Qed.

(** C8: for a gate configured with a non-negative maximum, after any
    sequence of [addToQueue] calls and job completions the number of active
    downloads is at most the configured maximum, every job was started while
    the active count, the job included, was within the maximum, and the jobs
    started so far followed by the jobs still queued are exactly the jobs
    enqueued, in the order of their enqueueing. *)
Theorem C8_gate_bounded_fifo (o : option Z) (evs : list dm_event) :
  (forall n, o = Some n -> 0 <= n) ->
  let m := dm_run (new_manager o) evs in
  Z.of_nat (size (activeDownloads m))
    <= maxConcurrentDownloads (new_manager o) /\
  Forall (fun c => Z.of_nat c <= maxConcurrentDownloads (new_manager o))
         (started_counts m) /\
  (started m ++ queue m)%list = enqueued evs.
Proof.
  intros Ho m.
  assert (H0 : within_limit (new_manager o)).
  { split; [|constructor]. cbn. rewrite map_size_empty.
    destruct o as [n|]; [|lia]. specialize (Ho n eq_refl).
    destruct (Z.eqb_spec n 0); lia. }
  destruct (dm_run_facts evs _ H0) as ([A1 A2] & B & C). fold m in A1, A2, B, C.
  rewrite B in A1, A2. repeat split; [exact A1 | exact A2 |].
  rewrite C. reflexivity.
Qed.

Lemma C8_gate_bounded_fifo_witness :
  let m := dm_run (new_manager (Some 2)) three_jobs in
  Z.of_nat (size (activeDownloads m))
    <= maxConcurrentDownloads (new_manager (Some 2)) /\
  Forall (fun c => Z.of_nat c <= maxConcurrentDownloads (new_manager (Some 2)))
         (started_counts m) /\
  (started m ++ queue m)%list = enqueued three_jobs.
Proof.
  apply (C8_gate_bounded_fifo (Some 2) three_jobs).
  intros n [= <-]. lia.
Defined.

(** * Further properties of the download pipeline *)

(** ** The percentage of a chunk *)

(** Whenever the percentage pattern matches a chunk, the progress written to
    the job is a number between 0 and 99: the text captured always parses
    (never [NaN]) and the clamp applies. *)
Theorem chunk_progress_in_range (output m : string) (old : option job) :
  re_match re_download output = Some m ->
  exists q, progress (jobUpdate m output old) = Some (Fin q) /\
            (0 <= q)%Q /\ (q <= 99)%Q.
Proof.
  intros Hm. destruct (download_capture_parses _ _ Hm) as (q & Hq & Hq0).
  exists (Qmin q 99). rewrite jobUpdate_progress, Hq. simpl. repeat split.
  - apply Q.min_glb; [exact Hq0 | discriminate].
  - apply Q.le_min_r.
Qed.

Lemma chunk_progress_in_range_witness :
  exists q,
    progress (jobUpdate "100" "[download] 100% of 50.00MiB" None)
      = Some (Fin q) /\ (0 <= q)%Q /\ (q <= 99)%Q.
Proof.
  apply (chunk_progress_in_range "[download] 100% of 50.00MiB" "100" None).
  vm_compute. reflexivity.
Defined.

(** ** Failure paths *)

(** When the process closes with a non-zero exit code or without an announced
    file, the job becomes [failed] with the exit code as its error, keeps the
    progress it had, loses its temporary directory, and the pending response
    is answered with status 500. *)
Theorem close_failure_marks_failed (st : server) (id : string) (r : request)
    (c : option Z) :
  requests st !! id = Some r -> phase r = Running ->
  c <> Some 0 \/ file_truthy (downloadedFile r) = None ->
  let st' := step st (EClose id c) in
  let old := spread (activeJobs st !! id) in
  activeJobs st' !! id
    = Some (set_error (ErrExit c)
              (set_stage StageDownloadFailed (set_status Failed old))) /\
  (tempDir id ∉ tempDirs st') /\
  requests st' !! id
    = Some (mkRequest (downloadedFile r) Done
              (if headersSent (res r) then res r
               else ResJson 500 DownloadFailed)) /\
  timers st' = timers st.
Proof.
  intros Hr Hp Hc. cbn [step]. unfold in_phase. rewrite Hr, Hp.
  rewrite close_handler_failure by exact Hc. srv_simpl.
  unfold registry_update. rewrite !lookup_insert_eq.
  repeat split. rewrite fs_rm_elem. tauto.
Qed.

Lemma close_failure_marks_failed_witness :
  let st := run init_server accepted_request in
  let st' := step st (EClose "j" (Some 1)) in
  let old := spread (activeJobs st !! "j") in
  activeJobs st' !! "j"
    = Some (set_error (ErrExit (Some 1))
              (set_stage StageDownloadFailed (set_status Failed old))) /\
  (tempDir "j" ∉ tempDirs st') /\
  requests st' !! "j"
    = Some (mkRequest None Done (ResJson 500 DownloadFailed)) /\
  timers st' = timers st.
Proof.
  apply (close_failure_marks_failed (run init_server accepted_request) "j"
           (mkRequest None Running ResPending) (Some 1)).
  - vm_compute. reflexivity.
  - reflexivity.
  - left. discriminate.
Defined.

(** When creating the directory or spawning the process throws, the request
    is answered with status 500, the job is registered as [failed] with the
    message of the exception, no temporary directory is left and no process
    has been spawned. *)
Theorem setup_failure_marks_failed (st : server) (id : string)
    (body_url body_format : jsval) (mkdir_err spawn_err : option string)
    (msg : string) :
  truthy body_url = true ->
  mkdir_err = Some msg \/ (mkdir_err = None /\ spawn_err = Some msg) ->
  let out := post_download id body_url body_format mkdir_err spawn_err st in
  snd out = ResJson 500 InternalError /\
  activeJobs (fst out) !! id
    = Some (mkJob (Some id) (Some Failed) (Some (Fin 0)) (Some StageFailed)
              (Some body_url) (Some body_format) None None
              (Some (ErrMessage msg))) /\
  (tempDir id ∉ tempDirs (fst out)) /\
  spawned (fst out) = spawned st.
Proof.
  intros Hu Herr. unfold post_download. rewrite Hu. cbn [negb].
  destruct Herr as [->|[-> ->]]; cbn [fst snd]; unfold post_catch; srv_simpl;
    unfold registry_update; rewrite !lookup_insert_eq; cbn [spread];
    (repeat split; rewrite fs_rm_elem; tauto).
Qed.

Lemma setup_failure_marks_failed_witness :
  let out := post_download "j" (JStr "https://example.org/v") JUndef
               None (Some "spawn EACCES") init_server in
  snd out = ResJson 500 InternalError /\
  activeJobs (fst out) !! "j"
    = Some (mkJob (Some "j") (Some Failed) (Some (Fin 0)) (Some StageFailed)
              (Some (JStr "https://example.org/v")) (Some JUndef) None None
              (Some (ErrMessage "spawn EACCES"))) /\
  (tempDir "j" ∉ tempDirs (fst out)) /\
  spawned (fst out) = spawned init_server.
Proof.
  apply (setup_failure_marks_failed init_server "j"
           (JStr "https://example.org/v") JUndef None (Some "spawn EACCES")
           "spawn EACCES").
  - reflexivity.
  - right. split; reflexivity.
Defined.

(** ** Identifiers the registry knows *)

Lemma step_requests_none st id ev :
  requests st !! id = None -> is_post_for id ev = false ->
  requests (step st ev) !! id = None.
Proof.
  intros Hr Hev.
  assert (Hun : forall st', untouched id st st' -> requests st' !! id = None).
  { intros st' (A & _). congruence. }
  assert (Hnone : forall ph h, in_phase ph id h st = st).
  { intros ph h. unfold in_phase. by rewrite Hr. }
  destruct ev; try (destruct (decide (id0 = id)) as [->|Hne];
    [|by (apply Hun, (handler_untouched id id0))]); cbn [step];
    rewrite ?Hnone; try exact Hr.
  cbn in Hev. by rewrite String.eqb_refl in Hev.
Qed.

Lemma run_requests_none evs : forall st id,
  requests st !! id = None -> forallb (fun ev => negb (is_post_for id ev)) evs = true ->
  requests (run st evs) !! id = None.
Proof.
  induction evs as [|ev evs IH]; intros st id Hr Hevs; [exact Hr|].
  cbn [forallb] in Hevs. apply andb_true_iff in Hevs as [Hev Hevs].
  apply negb_true_iff in Hev. cbn [run fold_left].
  apply (IH (step st ev) id); [by apply step_requests_none | exact Hevs].
Qed.

(** The progress endpoint answers not-found for every identifier that no
    download request was given, whatever else the server has processed. *)
Theorem unknown_job_not_found (evs : list event) (id : string) :
  forallb (fun ev => negb (is_post_for id ev)) evs = true ->
  get_progress (activeJobs (run init_server evs)) id = NotFound404.
Proof.
  intros Hevs. unfold get_progress.
  destruct (activeJobs (run init_server evs) !! id) as [jb|] eqn:Hjb;
    [|reflexivity].
  pose proof (run_inv evs init_server init_server_inv) as Hinv.
  destruct (inv_owner _ Hinv id (mk_is_Some _ _ Hjb)) as [r Hr].
  rewrite (run_requests_none evs init_server id) in Hr; [discriminate| |exact Hevs].
  apply lookup_empty.
Qed.

Lemma unknown_job_not_found_witness :
  get_progress (activeJobs (run init_server two_lines)) "other"
    = NotFound404.
Proof.
  apply (unknown_job_not_found two_lines "other").
  vm_compute. reflexivity.
Defined.

(** ** Terminal states *)

Lemma done_nontick_untouched st id r ev :
  requests st !! id = Some r -> phase r = Done ->
  match ev with ETick _ => False | _ => True end ->
  untouched id st (step st ev).
Proof.
  intros Hr Hp Hev.
  destruct ev; try (destruct (decide (id0 = id)) as [->|Hne];
    [|by apply (handler_untouched id id0)]); cbn [step];
    try (erewrite in_phase_done by eassumption; apply untouched_refl);
    try (by repeat split).
  - unfold fresh. rewrite bool_decide_eq_false_2 by congruence.
    unfold post_download.
    destruct (negb (truthy body_url)); apply untouched_refl.
Qed.

Lemma tick_lookup st dt id :
  activeJobs (tick dt st) !! id = activeJobs st !! id \/
  (activeJobs (tick dt st) !! id = None /\
   exists t, t ∈ timers st /\ snd t = id /\ (fst t <= clock st + dt)%N).
Proof.
  unfold tick. srv_simpl.
  destruct (lookup_foldr_delete
              (filter (fun t => due (clock st + dt) t = true) (timers st))
              (activeJobs st) id) as [[Hl _]|[Hl Hex]]; [by left|].
  right. split; [exact Hl|].
  apply Exists_exists in Hex as (t & Hin & Hid).
  apply list_elem_of_filter in Hin as [Hdue Hin].
  exists t. repeat split; auto. unfold due in Hdue. by apply N.leb_le.
Qed.

Lemma terminal_is_done st id jb r :
  server_inv st -> activeJobs st !! id = Some jb ->
  status jb = Some Completed \/ status jb = Some Failed ->
  requests st !! id = Some r -> phase r = Done.
Proof.
  intros Hinv Hjb Hs Hr.
  pose proof (inv_requests _ Hinv id r Hr) as Hok. unfold req_ok in Hok.
  destruct (phase r); [| | |reflexivity].
  - destruct Hok as (jb0 & Hjb0 & [H|H] & _); rewrite Hjb in Hjb0;
      injection Hjb0 as <-; destruct Hs; congruence.
  - destruct Hok as (jb0 & Hjb0 & H & _); rewrite Hjb in Hjb0;
      injection Hjb0 as <-; destruct Hs; congruence.
  - destruct Hok as (jb0 & Hjb0 & H & _); rewrite Hjb in Hjb0;
      injection Hjb0 as <-; destruct Hs; congruence.
Qed.

(** Once a job is [completed] or [failed] its registry entry is never
    written again: after any further event the entry is the same, or it has
    been evicted. *)
Theorem terminal_state_is_final (evs : list event) (ev : event) (id : string)
    (jb : job) :
  let st := run init_server evs in
  activeJobs st !! id = Some jb ->
  status jb = Some Completed \/ status jb = Some Failed ->
  activeJobs (step st ev) !! id = Some jb \/
  activeJobs (step st ev) !! id = None.
Proof.
  intros st Hjb Hs.
  pose proof (run_inv evs init_server init_server_inv) as Hinv. fold st in Hinv.
  destruct (inv_owner _ Hinv id (mk_is_Some _ _ Hjb)) as [r Hr].
  pose proof (terminal_is_done st id jb r Hinv Hjb Hs Hr) as Hp.
  destruct ev as [ | | | | | | |dt| | | ];
    try (match goal with
         | |- context [step st ?e] =>
             destruct (done_nontick_untouched st id r e Hr Hp I)
               as (_ & -> & _)
         end; by left).
  cbn [step]. destruct (tick_lookup st dt id) as [->|[-> _]]; auto.
Qed.

Lemma terminal_state_is_final_witness :
  let st := run init_server (announced_then_two_lines 52428800) in
  let jb := set_stage StageComplete
              (set_progress (Fin 100)
                 (set_status Completed job_downloading_99)) in
  activeJobs (step st (EStdout "j" "[download] 5.0%")) !! "j" = Some jb \/
  activeJobs (step st (EStdout "j" "[download] 5.0%")) !! "j" = None.
Proof.
  apply (terminal_state_is_final (announced_then_two_lines 52428800)
           (EStdout "j" "[download] 5.0%") "j").
  - vm_compute. reflexivity.
  - left. reflexivity.
Defined.

(** ** The retention window of a completed job *)

Lemma tick_evicts st dt id D :
  (D, id) ∈ timers st -> (D <= clock st + dt)%N ->
  activeJobs (tick dt st) !! id = None.
Proof.
  intros Hin Hdue. unfold tick. srv_simpl.
  destruct (lookup_foldr_delete
              (filter (fun t => due (clock st + dt) t = true) (timers st))
              (activeJobs st) id) as [[_ Hall]|[Hl _]]; [|exact Hl].
  rewrite Forall_forall in Hall. exfalso. apply (Hall (D, id)); [|reflexivity].
  apply list_elem_of_filter. split; [|exact Hin].
  unfold due. by apply N.leb_le.
Qed.

Lemma retained_step id D st ev : retained id D st -> retained id D (step st ev).
Proof.
  intros ((r & Hr & Hp) & Htim & Hcase).
  destruct ev as [ | | | | | | |dt| | | ];
    try (match goal with
         | |- context [step st ?e] =>
             destruct (done_nontick_untouched st id r e Hr Hp I)
               as (A1 & A2 & A3 & A4 & A5)
         end;
         split; [exists r; split; [congruence|exact Hp]|];
         split; [intros t Ht Hid; apply Htim; auto|];
         rewrite A2, A5;
         destruct Hcase as [(Hc & Hin & Hjb)|Hc]; [left|right]; auto).
  cbn [step]. split; [exists r; split; [exact Hr|exact Hp]|].
  split.
  { intros t Ht Hid. unfold tick in Ht. srv_simpl.
    apply list_elem_of_filter in Ht as [_ Ht]. by apply Htim. }
  assert (Hclock : clock (tick dt st) = (clock st + dt)%N) by reflexivity.
  rewrite Hclock.
  destruct Hcase as [(Hc & Hin & jb & Hjb & Hs)|[Hc Hnone]].
  - destruct (N.lt_ge_cases (clock st + dt) D) as [Hlt|Hge].
    + left. split; [exact Hlt|]. split.
      * unfold tick. srv_simpl. apply list_elem_of_filter. split; [|exact Hin].
        unfold due. cbn [fst]. apply N.leb_gt. exact Hlt.
      * exists jb. split; [|exact Hs].
        destruct (tick_lookup st dt id) as [->|(_ & t & Ht & Hid & Hdue)];
          [exact Hjb|].
        rewrite (Htim t Ht Hid) in Hdue. lia.
    + right. split; [exact Hge|]. by eapply tick_evicts.
  - right. split; [lia|].
    destruct (tick_lookup st dt id) as [->|[-> _]]; auto.
Qed.

Lemma retained_run id D evs : forall st,
  retained id D st -> retained id D (run st evs).
Proof.
  induction evs as [|ev evs IH]; intros st H; [exact H|].
  apply IH. by apply retained_step.
Qed.

(** After the file of a job has been sent, its registry entry is served as
    [completed] while less than five minutes have passed on the clock, and
    the progress endpoint answers not-found at any time from five minutes on,
    whatever other events the server processes in between. *)
Theorem completed_job_retention (evs later : list event) (id : string)
    (r : request) :
  let st := run init_server evs in
  requests st !! id = Some r -> phase r = Piping ->
  let st2 := run (step st (EStreamEnd id)) later in
  ((clock st2 < clock st + retention_ms)%N ->
     exists jb, get_progress (activeJobs st2) id = JobJson jb /\
                status jb = Some Completed) /\
  ((clock st + retention_ms <= clock st2)%N ->
     get_progress (activeJobs st2) id = NotFound404).
Proof.
  intros st Hr Hp st2.
  pose proof (run_inv evs init_server init_server_inv) as Hinv. fold st in Hinv.
  assert (H1 : retained id (clock st + retention_ms)
                 (step st (EStreamEnd id))).
  { cbn [step]. unfold in_phase. rewrite Hr, Hp. unfold stream_end.
    split; [|split]; srv_simpl.
    - eexists. split; [apply lookup_insert_eq|reflexivity].
    - intros t Ht Hid. apply elem_of_app in Ht as [Ht|Ht].
      + destruct (inv_timers _ Hinv t Ht) as (r' & Hr' & Hp').
        rewrite Hid, Hr in Hr'. congruence.
      + by apply list_elem_of_singleton in Ht as ->.
    - left. split; [unfold retention_ms; lia|]. split.
      + apply elem_of_app. right. by apply list_elem_of_singleton.
      + unfold registry_update. rewrite lookup_insert_eq.
        eexists. split; reflexivity. }
  pose proof (retained_run id _ later _ H1) as (_ & _ & Hcase).
  fold st2 in Hcase. unfold get_progress. split; intros Hc.
  - destruct Hcase as [(_ & _ & jb & -> & Hs)|[Hc' _]]; [eauto|lia].
  - destruct Hcase as [(Hc' & _)|[_ ->]]; [lia|reflexivity].
Qed.

Lemma completed_job_retention_witness :
  let st := run init_server streaming_job_events in
  let st2 := run (step st (EStreamEnd "j")) [ETick 299999; ETick 1] in
  ((clock st2 < clock st + retention_ms)%N ->
     exists jb, get_progress (activeJobs st2) "j" = JobJson jb /\
                status jb = Some Completed) /\
  ((clock st + retention_ms <= clock st2)%N ->
     get_progress (activeJobs st2) "j" = NotFound404).
Proof.
  apply (completed_job_retention streaming_job_events
           [ETick 299999; ETick 1] "j"
           (mkRequest (Some "temp/j/clip.mp4") Piping
              (ResFile "temp/j/clip.mp4" 52428800))).
  - vm_compute. reflexivity.
  - reflexivity.
Defined.

(** ** The order of the statuses *)

Lemma in_phase_cases_phase ph id h st :
  in_phase ph id h st = st \/
  exists r, requests st !! id = Some r /\ phase r = ph /\
            in_phase ph id h st = h r st.
Proof.
  unfold in_phase. destruct (requests st !! id) as [r|]; [|by left].
  destruct ph, (phase r) eqn:E; eauto.
Qed.

Lemma status_rank_le_3 s : (status_rank s <= 3)%nat.
Proof. destruct s as [[]|]; simpl; lia. Qed.

(** The status of a job only moves forward: from [initializing] to
    [downloading], then to [streaming], then to [completed] or [failed]; no
    event takes the registry entry of a job back to an earlier status. *)
Theorem status_never_goes_back (evs : list event) (ev : event) (id : string)
    (jb jb' : job) :
  let st := run init_server evs in
  activeJobs st !! id = Some jb ->
  activeJobs (step st ev) !! id = Some jb' ->
  (status_rank (status jb) <= status_rank (status jb'))%nat.
Proof.
  intros st Hjb Hjb'.
  pose proof (run_inv evs init_server init_server_inv) as Hinv. fold st in Hinv.
  destruct (inv_owner _ Hinv id (mk_is_Some _ _ Hjb)) as [r Hr].
  pose proof (inv_requests _ Hinv id r Hr) as Hok. unfold req_ok in Hok.
  assert (Hsame : activeJobs (step st ev) !! id = activeJobs st !! id ->
                  (status_rank (status jb) <= status_rank (status jb'))%nat).
  { intros E. rewrite E, Hjb in Hjb'. by injection Hjb' as <-. }
  assert (Hrun : phase r = Running -> (status_rank (status jb) <= 1)%nat).
  { intros Hp. rewrite Hp in Hok.
    destruct Hok as (jb0 & Hjb0 & [H|H] & _); rewrite Hjb in Hjb0;
      injection Hjb0 as <-; rewrite H; simpl; lia. }
  destruct ev as [i| i output| |i c|i n|i|i|dt| | | ];
    try (apply Hsame; reflexivity);
    try (destruct (decide (i = id)) as [->|Hne];
         [|apply Hsame; by apply (handler_untouched id i)]).
  - apply Hsame. cbn [step]. unfold fresh.
    rewrite bool_decide_eq_false_2 by congruence.
    unfold post_download. by destruct (negb (truthy body_url)).
  - cbn [step] in *.
    destruct (in_phase_cases_phase Running id (stdout_data id output) st)
      as [E|(r' & Hr' & Hp & E)]; rewrite E in *; [by apply Hsame|].
    rewrite Hr in Hr'. injection Hr' as <-.
    unfold stdout_data in Hjb'.
    destruct (re_match re_download output) as [m|]; srv_simpl.
    + rewrite lookup_insert_eq in Hjb'. injection Hjb' as <-.
      rewrite jobUpdate_status. simpl. by apply Hrun.
    + rewrite Hjb in Hjb'. by injection Hjb' as <-.
  - cbn [step] in *.
    destruct (in_phase_cases_phase Running id (close_handler id c) st)
      as [E|(r' & Hr' & Hp & E)]; rewrite E in *; [by apply Hsame|].
    rewrite Hr in Hr'. injection Hr' as <-. specialize (Hrun Hp).
    unfold close_handler in Hjb'.
    destruct c as [[| |]|]; try destruct (file_truthy _); srv_simpl;
      unfold registry_update in Hjb'; rewrite lookup_insert_eq in Hjb';
      injection Hjb' as <-; simpl; lia.
  - cbn [step] in *.
    destruct (in_phase_cases_phase AwaitStat id (stat_result id n) st)
      as [E|(r' & Hr' & Hp & E)]; rewrite E in *; [by apply Hsame|].
    unfold stat_result in Hjb'. destruct n; srv_simpl;
      rewrite Hjb in Hjb'; by injection Hjb' as <-.
  - cbn [step] in *.
    destruct (in_phase_cases_phase Piping id (stream_end id) st)
      as [E|(r' & Hr' & Hp & E)]; rewrite E in *; [by apply Hsame|].
    unfold stream_end in Hjb'. srv_simpl. unfold registry_update in Hjb'.
    rewrite lookup_insert_eq in Hjb'. injection Hjb' as <-.
    simpl. apply status_rank_le_3.
  - cbn [step] in *.
    destruct (in_phase_cases_phase Piping id (stream_error id) st)
      as [E|(r' & Hr' & Hp & E)]; rewrite E in *; [by apply Hsame|].
    unfold stream_error in Hjb'. srv_simpl.
    rewrite Hjb in Hjb'. by injection Hjb' as <-.
  - cbn [step] in Hjb'.
    destruct (tick_lookup st dt id) as [E|[E _]]; [by apply Hsame|].
    congruence.
Qed.

Lemma status_never_goes_back_witness :
  (status_rank (status job_downloading_10)
   <= status_rank (status job_downloading_99))%nat.
Proof.
  apply (status_never_goes_back
           [EPost "j" (JStr "https://example.org/v") JUndef None None;
            EStdout "j" "[download] 10.0% of ~50.00MiB ETA 00:30"]
           (EStdout "j" "[download] 100% of 50.00MiB") "j").
  - vm_compute. reflexivity.
  - vm_compute. reflexivity.
Defined.

(** ** Delivery of progress updates *)

Lemma broadcasts_app bs1 bs2 cs :
  broadcasts (bs1 ++ bs2) cs = broadcasts bs2 (broadcasts bs1 cs).
Proof. unfold broadcasts. apply fold_left_app. Qed.

Lemma payloads_for_cons id b bs :
  payloads_for id (b :: bs) =
  ((if decide (fst b = id) then [snd b] else []) ++ payloads_for id bs)%list.
Proof.
  unfold payloads_for. rewrite filter_cons. by destruct (decide (fst b = id)).
Qed.

Lemma broadcasts_lookup_open id bs : forall cs i ws,
  cs !! i = Some ws -> client_open ws = true -> client_jobId ws = JStr id ->
  broadcasts bs cs !! i
    = Some (mkClient true (JStr id)
              (client_inbox ws ++ payloads_for id bs)%list).
Proof.
  induction bs as [|b bs IH]; intros cs i ws Hws Hopen Hid.
  - cbn. rewrite app_nil_r, Hws. f_equal. destruct ws; simpl in *; congruence.
  - cbn [broadcasts fold_left].
    change (fold_left _ bs ?c) with (broadcasts bs c).
    erewrite IH; [| rewrite broadcastProgress_lookup, Hws; reflexivity | |].
    + rewrite payloads_for_cons. rewrite Hopen, Hid. cbn [andb strict_eq_str].
      destruct (String.eqb_spec id (fst b)) as [E|Hne].
      * rewrite decide_True by done. cbn. by rewrite <- app_assoc.
      * rewrite decide_False by done. reflexivity.
    + rewrite Hopen, Hid. cbn [andb strict_eq_str].
      by destruct (String.eqb id (fst b)).
    + rewrite Hopen, Hid. cbn [andb strict_eq_str].
      by destruct (String.eqb id (fst b)).
Qed.

Lemma broadcasts_lookup_closed bs : forall cs i ws,
  cs !! i = Some ws -> client_open ws = false ->
  broadcasts bs cs !! i = Some ws.
Proof.
  induction bs as [|b bs IH]; intros cs i ws Hws Hopen; [exact Hws|].
  cbn [broadcasts fold_left]. change (fold_left _ bs ?c) with (broadcasts bs c).
  apply IH; [|exact Hopen].
  rewrite broadcastProgress_lookup, Hws. cbn. by rewrite Hopen.
Qed.

(** Every event changes the connections by its WebSocket effect followed by
    a sequence of broadcasts, and whenever the event leaves a new registry
    entry for a job, the last broadcast carries exactly that entry. *)
Lemma step_broadcasts st ev :
  exists bs,
    clients (step st ev) = broadcasts bs (ws_update ev (clients st)) /\
    forall id jb',
      activeJobs (step st ev) !! id = Some jb' ->
      activeJobs (step st ev) !! id <> activeJobs st !! id ->
      last bs = Some (id, jb').
Proof.
  assert (Hnil : forall st', clients st' = clients st ->
            activeJobs st' = activeJobs st ->
            exists bs, clients st' = broadcasts bs (clients st) /\
              forall id jb', activeJobs st' !! id = Some jb' ->
                activeJobs st' !! id <> activeJobs st !! id ->
                last bs = Some (id, jb')).
  { intros st' Hc Ha. exists []. split; [exact Hc|].
    intros id jb' _ Hne. by rewrite Ha in Hne. }
  assert (Hone : forall st' i jb,
            clients st' = broadcastProgress i jb (clients st) ->
            activeJobs st' = <[i := jb]> (activeJobs st) ->
            exists bs, clients st' = broadcasts bs (clients st) /\
              forall id jb', activeJobs st' !! id = Some jb' ->
                activeJobs st' !! id <> activeJobs st !! id ->
                last bs = Some (id, jb')).
  { intros st' i jb Hc Ha. exists [(i, jb)]. split; [exact Hc|].
    intros id jb' Hl Hne. rewrite Ha in Hl, Hne.
    destruct (decide (i = id)) as [->|Hi].
    - rewrite lookup_insert_eq in Hl. by injection Hl as ->.
    - by rewrite lookup_insert_ne in Hne. }
  destruct ev as [i u f me se|i output|i output|i c|i n|i|i|dt| |k msg|k];
    cbn [step ws_update].
  - destruct (negb (truthy u) || fresh i st) eqn:Hg; [|by apply Hnil].
    unfold post_download.
    destruct (negb (truthy u)) eqn:Hu; [by apply Hnil|].
    cbn [orb] in Hg. unfold fresh in Hg. apply bool_decide_eq_true in Hg.
    destruct me as [msg|]; [|destruct se as [msg|]]; cbn [fst].
    + eapply Hone; unfold post_catch; srv_simpl; [reflexivity|].
      unfold registry_update. by rewrite insert_insert_eq.
    + eexists [(i, _); (i, _)].
      split; [unfold post_catch; srv_simpl; reflexivity|].
      intros id jb'. unfold post_catch. srv_simpl.
      unfold registry_update. rewrite insert_insert_eq. intros Hl Hne.
      destruct (decide (i = id)) as [->|Hi].
      * rewrite lookup_insert_eq in Hl. injection Hl as <-.
        by rewrite lookup_insert_eq.
      * by rewrite lookup_insert_ne in Hne.
    + eapply Hone; srv_simpl; reflexivity.
  - destruct (in_phase_cases Running i (stdout_data i output) st)
      as [->|(r & _ & ->)]; [by apply Hnil|].
    unfold stdout_data. destruct (re_match re_download output).
    + eapply Hone; srv_simpl; reflexivity.
    + by apply Hnil.
  - by apply Hnil.
  - destruct (in_phase_cases Running i (close_handler i c) st)
      as [->|(r & _ & ->)]; [by apply Hnil|].
    unfold close_handler.
    destruct c as [[| |]|]; try destruct (file_truthy _);
      eapply Hone; srv_simpl; reflexivity.
  - destruct (in_phase_cases AwaitStat i (stat_result i n) st)
      as [->|(r & _ & ->)]; [by apply Hnil|].
    unfold stat_result. destruct n; by apply Hnil.
  - destruct (in_phase_cases Piping i (stream_end i) st)
      as [->|(r & _ & ->)]; [by apply Hnil|].
    unfold stream_end. eapply Hone; srv_simpl; reflexivity.
  - destruct (in_phase_cases Piping i (stream_error i) st)
      as [->|(r & _ & ->)]; [by apply Hnil|].
    unfold stream_error. by apply Hnil.
  - exists []. split; [reflexivity|]. intros id jb' Hl Hne.
    destruct (tick_lookup st dt id) as [E|[E _]]; congruence.
  - exists []. split; [reflexivity|]. intros id jb' _ Hne. by destruct Hne.
  - exists []. split; [reflexivity|]. intros id jb' _ Hne. by destruct Hne.
  - exists []. split; [reflexivity|]. intros id jb' _ Hne. by destruct Hne.
Qed.


Lemma ws_update_lookup ev cs i ws :
  cs !! i = Some ws -> touches_connection i ev = false ->
  ws_update ev cs !! i = Some ws.
Proof.
  intros Hws Hev. destruct ev; cbn [ws_update]; try exact Hws.
  - by apply lookup_app_l_Some.
  - cbn in Hev. apply Nat.eqb_neq in Hev.
    destruct (cs !! i0) as [w|]; [|exact Hws].
    destruct (client_open w); [|exact Hws].
    by rewrite list_lookup_insert_ne.
  - cbn in Hev. apply Nat.eqb_neq in Hev.
    by rewrite list_lookup_alter_ne.
Qed.

Lemma ws_update_lookup_closed ev cs i ws :
  cs !! i = Some ws -> client_open ws = false ->
  ws_update ev cs !! i = Some ws.
Proof.
  intros Hws Hopen.
  destruct (touches_connection i ev) eqn:Hev;
    [|by apply ws_update_lookup].
  destruct ev; try discriminate; cbn in Hev; apply Nat.eqb_eq in Hev;
    subst i0; cbn [ws_update].
  - by rewrite Hws, Hopen.
  - rewrite list_lookup_alter_eq, Hws. cbn. f_equal.
    unfold close_client. destruct ws; simpl in *. congruence.
Qed.

(** A connection that has been closed is never sent anything: its record,
    the messages delivered included, stays as it was through every later
    event. *)
Theorem closed_connection_receives_nothing (evs : list event) :
  forall (st : server) (i : nat) (ws : client),
    clients st !! i = Some ws -> client_open ws = false ->
    clients (run st evs) !! i = Some ws.
Proof.
  induction evs as [|ev evs IH]; intros st i ws Hws Hopen; [exact Hws|].
  cbn [run fold_left]. apply (IH (step st ev)); [|exact Hopen].
  destruct (step_broadcasts st ev) as (bs & -> & _).
  apply broadcasts_lookup_closed; [|exact Hopen].
  by apply ws_update_lookup_closed.
Qed.

Lemma closed_connection_receives_nothing_witness :
  clients (run (run init_server (two_subscribers ++ [EWsClose 0]))
             two_lines) !! 0%nat
  = Some (mkClient false (JStr "j") []).
Proof.
  apply (closed_connection_receives_nothing two_lines
           (run init_server (two_subscribers ++ [EWsClose 0])) 0
           (mkClient false (JStr "j") [])).
  - vm_compute. reflexivity.
  - reflexivity.
Defined.

(** Two open connections subscribed to the same job are sent the same
    updates in the same order, as long as neither sends a message or
    closes. *)
Theorem subscribers_receive_same_updates (evs : list event) :
  forall (st : server) (id : string) (i k : nat) (wi wk : client),
    clients st !! i = Some wi -> clients st !! k = Some wk ->
    client_open wi = true -> client_open wk = true ->
    client_jobId wi = JStr id -> client_jobId wk = JStr id ->
    forallb (fun ev => negb (touches_connection i ev)
                       && negb (touches_connection k ev)) evs = true ->
    exists delta,
      clients (run st evs) !! i
        = Some (mkClient true (JStr id) (client_inbox wi ++ delta)%list) /\
      clients (run st evs) !! k
        = Some (mkClient true (JStr id) (client_inbox wk ++ delta)%list).
Proof.
  induction evs as [|ev evs IH];
    intros st id i k wi wk Hi Hk Hoi Hok Hji Hjk Hevs.
  - exists []. rewrite !app_nil_r. cbn [run fold_left]. rewrite Hi, Hk.
    split; f_equal; [destruct wi | destruct wk]; simpl in *; congruence.
  - cbn [forallb] in Hevs. apply andb_true_iff in Hevs as [Hev Hevs].
    apply andb_true_iff in Hev as [Hti Htk].
    apply negb_true_iff in Hti, Htk.
    destruct (step_broadcasts st ev) as (bs & Hc & _).
    pose proof (broadcasts_lookup_open id bs _ i wi
                  (ws_update_lookup ev _ i wi Hi Hti) Hoi Hji) as Hi'.
    pose proof (broadcasts_lookup_open id bs _ k wk
                  (ws_update_lookup ev _ k wk Hk Htk) Hok Hjk) as Hk'.
    rewrite <- Hc in Hi', Hk'.
    destruct (IH (step st ev) id i k _ _ Hi' Hk' eq_refl eq_refl
                eq_refl eq_refl Hevs) as (delta & Di & Dk).
    exists (payloads_for id bs ++ delta)%list. cbn [run fold_left].
    change (fold_left step evs (step st ev)) with (run (step st ev) evs).
    rewrite Di, Dk. cbn [client_inbox]. by rewrite !app_assoc.
Qed.

Lemma subscribers_receive_same_updates_witness :
  exists delta,
    clients (run (run init_server two_subscribers) two_lines) !! 0%nat
      = Some (mkClient true (JStr "j") ([] ++ delta)%list) /\
    clients (run (run init_server two_subscribers) two_lines) !! 1%nat
      = Some (mkClient true (JStr "j") ([] ++ delta)%list).
Proof.
  apply (subscribers_receive_same_updates two_lines
           (run init_server two_subscribers) "j" 0 1
           (mkClient true (JStr "j") []) (mkClient true (JStr "j") []));
    vm_compute; reflexivity.
Defined.



(** * Further properties of the queue gate *)

Lemma keyed_fst l : (keyed l).*1 = dj_jobId <$> l.
Proof. unfold keyed. rewrite <- list_fmap_compose. reflexivity. Qed.

Lemma list_to_map_delete_nth (l : list (string * downloadJob)) :
  forall i k v,
    NoDup l.*1 -> l !! i = Some (k, v) ->
    list_to_map (delete i l) =@{gmap string downloadJob}
    delete k (list_to_map l).
Proof.
  induction l as [|[k0 v0] l IH]; intros i k v Hnd Hi; [done|].
  apply NoDup_cons in Hnd as [Hk0 Hnd]. destruct i as [|i].
  - injection Hi as -> ->. cbn. rewrite delete_insert_eq.
    symmetry. apply delete_id. by apply not_elem_of_list_to_map_1.
  - cbn in Hi.
    change (delete (S i) ((k0, v0) :: l)) with ((k0, v0) :: delete i l).
    rewrite !list_to_map_cons, (IH i k v Hnd Hi).
    assert (k <> k0).
    { intros ->. apply Hk0. apply list_elem_of_fmap.
      exists (k0, v). split; [reflexivity|]. by eapply list_elem_of_lookup_2. }
    by rewrite delete_insert_ne.
Qed.

Lemma sublist_ids (l1 l2 : list downloadJob) :
  l1 `sublist_of` l2 -> (dj_jobId <$> l1) `sublist_of` (dj_jobId <$> l2).
Proof. intros H. by apply fmap_sublist. Qed.

Lemma gate_executing_nodup rest m :
  gate_inv rest m -> NoDup (dj_jobId <$> executing m).
Proof.
  intros [Hids Hsub _ _].
  rewrite fmap_app in Hids. apply NoDup_app in Hids as [Hs _].
  eapply sublist_NoDup; [exact Hs|]. by apply sublist_ids.
Qed.

Lemma gate_active_keys rest m k :
  gate_inv rest m -> is_Some (activeDownloads m !! k) ->
  k ∈ dj_jobId <$> executing m.
Proof.
  intros Hg [v Hv]. rewrite (gate_map _ _ Hg) in Hv.
  apply elem_of_list_to_map_2 in Hv. rewrite <- keyed_fst.
  apply list_elem_of_fmap. by exists (k, v).
Qed.

(** [processQueue] on a gate that is consistent except, possibly, for an
    idle slot with jobs waiting: the slot is taken. *)
Lemma processQueue_gate rest m :
  NoDup (dj_jobId <$> (started m ++ queue m ++ rest)%list) ->
  executing m `sublist_of` started m ->
  activeDownloads m = list_to_map (keyed (executing m)) ->
  ((length (queue m) <= 1)%nat \/
   maxConcurrentDownloads m - 1 <= Z.of_nat (size (activeDownloads m))) ->
  gate_inv rest (processQueue m).
Proof.
  intros Hids Hsub Hmap Hbusy. unfold processQueue.
  destruct (Z.geb_spec (Z.of_nat (size (activeDownloads m)))
              (maxConcurrentDownloads m)) as [Hge|Hlt].
  { split; [exact Hids | exact Hsub | exact Hmap | right; lia]. }
  destruct (queue m) as [|jb q] eqn:Hq.
  { split; [by rewrite Hq | exact Hsub | exact Hmap | by left]. }
  cbn [length] in Hbusy.
  assert (Hfresh : activeDownloads m !! dj_jobId jb = None).
  { destruct (activeDownloads m !! dj_jobId jb) eqn:E; [|reflexivity].
    exfalso. rewrite Hmap in E. apply elem_of_list_to_map_2 in E.
    assert (Hin : dj_jobId jb ∈ dj_jobId <$> executing m).
    { rewrite <- keyed_fst. apply list_elem_of_fmap. by eexists (_, _). }
    rewrite fmap_app in Hids. apply NoDup_app in Hids as (_ & Hdis & _).
    apply (Hdis (dj_jobId jb)).
    - eapply elem_of_sublist; [exact Hin|]. by apply sublist_ids.
    - rewrite fmap_app, fmap_cons. apply elem_of_app. left. by left. }
  split; cbn [started queue executing activeDownloads maxConcurrentDownloads].
  - by rewrite <- app_assoc.
  - by apply sublist_app.
  - assert (Hk : keyed (executing m ++ [jb])%list
                 = (keyed (executing m) ++ [(dj_jobId jb, jb)])%list).
    { unfold keyed. by rewrite fmap_app. }
    rewrite Hk, list_to_map_snoc; [by rewrite Hmap|].
    rewrite Hmap in Hfresh. by apply not_elem_of_list_to_map_2.
  - destruct Hbusy as [Hl|Hb].
    + left. destruct q; [reflexivity | cbn in Hl; lia].
    + right. rewrite map_size_insert_None by exact Hfresh. lia.
Qed.

Lemma dm_step_gate rest m ev :
  gate_inv (enqueued [ev] ++ rest) m -> gate_inv rest (dm_step m ev).
Proof.
  intros Hg. pose proof Hg as [Hids Hsub Hmap Hbusy].
  destruct ev as [jb|i o]; cbn [dm_step enqueued omap app] in *.
  - unfold addToQueue. apply processQueue_gate;
      cbn [started queue executing activeDownloads maxConcurrentDownloads].
    + by rewrite <- app_assoc.
    + exact Hsub.
    + exact Hmap.
    + destruct Hbusy as [->|Hb]; [left; cbn; lia | right; lia].
  - unfold settle. destruct (executing m !! i) as [jb|] eqn:Hi; [|exact Hg].
    apply processQueue_gate;
      cbn [started queue executing activeDownloads maxConcurrentDownloads].
    + exact Hids.
    + etrans; [apply sublist_delete | exact Hsub].
    + unfold keyed. rewrite list_fmap_delete. fold (keyed (executing m)).
      rewrite (list_to_map_delete_nth _ i (dj_jobId jb) jb).
      * by rewrite Hmap.
      * rewrite keyed_fst. by eapply gate_executing_nodup.
      * unfold keyed. by rewrite list_lookup_fmap, Hi.
    + destruct Hbusy as [->|Hb]; [left; cbn; lia | right].
      pose proof (map_size_delete (dj_jobId jb) (activeDownloads m)) as Hs.
      destruct (activeDownloads m !! dj_jobId jb); simpl in Hs; lia.
Qed.

Lemma dm_run_gate evs : forall rest m,
  gate_inv (enqueued evs ++ rest) m -> gate_inv rest (dm_run m evs).
Proof.
  induction evs as [|ev evs IH]; intros rest m Hg; [exact Hg|].
  cbn [dm_run fold_left]. apply IH. apply dm_step_gate.
  by rewrite app_assoc, <- enqueued_cons.
Qed.

Lemma new_manager_gate o rest :
  NoDup (dj_jobId <$> rest) -> gate_inv rest (new_manager o).
Proof.
  intros H. split; cbn; auto.
Qed.

(** When the jobs handed to the gate carry distinct identifiers, the jobs
    whose [execute] is in flight are exactly the entries of
    [activeDownloads]: their number is its size and, for a non-negative
    maximum, never exceeds the maximum. *)
Theorem gate_bounds_running_jobs (o : option Z) (evs : list dm_event) :
  (forall n, o = Some n -> 0 <= n) ->
  NoDup (dj_jobId <$> enqueued evs) ->
  let m := dm_run (new_manager o) evs in
  (length (executing m) = size (activeDownloads m))%nat /\
  (Z.of_nat (length (executing m))
     <= maxConcurrentDownloads (new_manager o)) /\
  (forall id, isJobActive id m = true <-> id ∈ dj_jobId <$> executing m).
Proof.
  intros Ho Hnd m.
  assert (Hg : gate_inv [] m).
  { apply dm_run_gate, new_manager_gate. by rewrite app_nil_r. }
  pose proof (gate_executing_nodup _ _ Hg) as Hex.
  assert (Hlen : length (executing m) = size (activeDownloads m)).
  { rewrite (gate_map _ _ Hg), map_size_list_to_map by (by rewrite keyed_fst).
    unfold keyed. by rewrite length_fmap. }
  split; [exact Hlen|]. split.
  - rewrite Hlen. by apply (gate_size_bound o evs).
  - intros id. unfold isJobActive. rewrite bool_decide_eq_true. split.
    + by apply (gate_active_keys []).
    + intros Hin. rewrite (gate_map _ _ Hg).
      destruct (list_to_map (keyed (executing m)) !! id) eqn:E; [eauto|].
      exfalso. apply not_elem_of_list_to_map_2 in E.
      by rewrite keyed_fst in E.
Qed.

Lemma gate_bounds_running_jobs_witness :
  let m := dm_run (new_manager (Some 2)) three_jobs in
  (length (executing m) = size (activeDownloads m))%nat /\
  (Z.of_nat (length (executing m))
     <= maxConcurrentDownloads (new_manager (Some 2))) /\
  (forall id, isJobActive id m = true <-> id ∈ dj_jobId <$> executing m).
Proof.
  apply (gate_bounds_running_jobs (Some 2) three_jobs).
  - intros n [= <-]. lia.
  - apply (bool_decide_unpack _). vm_compute. exact I.
Defined.

(** With distinct identifiers the gate never leaves a slot idle while a job
    waits: after any sequence of calls and completions, either the queue is
    empty or the number of jobs in flight has reached the maximum. *)
Theorem gate_no_idle_slot (o : option Z) (evs : list dm_event) :
  NoDup (dj_jobId <$> enqueued evs) ->
  let m := dm_run (new_manager o) evs in
  queue m = [] \/
  maxConcurrentDownloads (new_manager o) <= Z.of_nat (length (executing m)).
Proof.
  intros Hnd m.
  assert (Hg : gate_inv [] m).
  { apply dm_run_gate, new_manager_gate. by rewrite app_nil_r. }
  destruct (gate_busy _ _ Hg) as [Hq|Hb]; [by left|right].
  assert (Hlen : length (executing m) = size (activeDownloads m)).
  { rewrite (gate_map _ _ Hg), map_size_list_to_map.
    - unfold keyed. by rewrite length_fmap.
    - rewrite keyed_fst. by eapply gate_executing_nodup. }
  rewrite Hlen.
  assert (Hmax : maxConcurrentDownloads m
                 = maxConcurrentDownloads (new_manager o)).
  { apply (dm_run_max evs). }
  by rewrite <- Hmax.
Qed.

Lemma gate_no_idle_slot_witness :
  let m := dm_run (new_manager (Some 2)) three_jobs in
  queue m = [] \/
  maxConcurrentDownloads (new_manager (Some 2))
    <= Z.of_nat (length (executing m)).
Proof.
  apply (gate_no_idle_slot (Some 2) three_jobs).
  apply (bool_decide_unpack _). vm_compute. exact I.
Defined.

(** * The rate limiter *)

Lemma recent_recent t1 t2 l :
  t1 <= t2 -> recent t2 (recent t1 l) = recent t2 l.
Proof.
  intros Ht. unfold recent. induction l as [|x l IH]; [reflexivity|].
  rewrite !filter_cons. destruct (decide (t1 - x < windowMs)).
  - rewrite filter_cons. destruct (decide (t2 - x < windowMs)); by rewrite IH.
  - rewrite decide_False by lia. exact IH.
Qed.

Lemma recent_app now l1 l2 :
  recent now (l1 ++ l2) = (recent now l1 ++ recent now l2)%list.
Proof. unfold recent. apply filter_app. Qed.

Lemma granted_snoc k log k' t :
  granted k (log ++ [(k', t)]) =
  (granted k log ++ if decide (k' = k) then [t] else [])%list.
Proof.
  unfold granted. rewrite filter_app, fmap_app, filter_cons, filter_nil.
  cbn [fst]. by destruct (decide (k' = k)).
Qed.

Lemma checkRateLimit_requests (k limit now : Z) (store : gmap Z (list Z)) :
  let store1 := match store !! k with
                | None => <[k := []]> store
                | Some _ => store
                end in
  default [] (store1 !! k) = default [] (store !! k) /\
  forall k', k' <> k -> store1 !! k' = store !! k'.
Proof.
  destruct (store !! k) eqn:E; cbn.
  - by rewrite E.
  - rewrite lookup_insert_eq. split; [reflexivity|].
    intros k' Hne. by rewrite lookup_insert_ne.
Qed.

(** The decision of a check depends on the recent requests stored for the
    key alone. *)
Lemma checkRateLimit_allowed (k limit now : Z) (store : gmap Z (list Z)) :
  allowed (snd (checkRateLimit k limit now store))
  = negb (Z.of_nat (length (recent now (default [] (store !! k)))) >=? limit).
Proof.
  unfold checkRateLimit.
  destruct (checkRateLimit_requests k limit now store) as [-> _].
  by destruct (_ >=? _).
Qed.

Lemma cleanup_requests (now : Z) (store : gmap Z (list Z)) (k : Z) :
  default [] (cleanupRateLimitStore now store !! k)
  = recent now (default [] (store !! k)).
Proof.
  unfold cleanupRateLimitStore. rewrite lookup_omap.
  destruct (store !! k) as [l|]; [|reflexivity].
  change (default [] (match recent now l with [] => None | r => Some r end)
          = recent now l).
  by destruct (recent now l).
Qed.

Lemma rl_step_inv last s ev :
  rl_inv last s -> last <= rl_time ev -> rl_inv (rl_time ev) (rl_step s ev).
Proof.
  intros Hinv Hle. destruct ev as [k limit t|t]; cbn [rl_time rl_step] in *.
  - intros k' now Hnow. unfold checkRateLimit.
    destruct (checkRateLimit_requests k limit t (fst s)) as [Hk Hother].
    rewrite Hk.
    destruct (Z.of_nat (length (recent t (default [] (fst s !! k))))
              >=? limit) eqn:Hc; cbn [fst snd allowed].
    + destruct (decide (k' = k)) as [->|Hne].
      * rewrite Hk. apply Hinv. lia.
      * rewrite Hother by done. apply Hinv. lia.
    + rewrite granted_snoc. destruct (decide (k = k')) as [->|Hne].
      * rewrite lookup_insert_eq. cbn [default]. unfold id.
        rewrite !recent_app, recent_recent by done.
        f_equal. apply Hinv. lia.
      * rewrite lookup_insert_ne, Hother, app_nil_r by done.
        apply Hinv. lia.
  - intros k now Hnow. cbn [fst snd].
    rewrite cleanup_requests, recent_recent by done. apply Hinv. lia.
Qed.

Lemma rl_run_inv evs : forall last s,
  rl_inv last s -> chronological last evs = true ->
  rl_inv (last_time last evs) (fold_left rl_step evs s).
Proof.
  induction evs as [|ev evs IH]; intros last s Hinv Hch; [exact Hinv|].
  cbn [chronological] in Hch. apply andb_true_iff in Hch as [Hle Hch].
  apply Z.leb_le in Hle. cbn [fold_left last_time].
  apply IH; [by apply (rl_step_inv last) | exact Hch].
Qed.

Lemma chronological_snoc evs : forall last ev,
  chronological last (evs ++ [ev]) = true ->
  chronological last evs = true /\ last_time last evs <= rl_time ev.
Proof.
  induction evs as [|e evs IH]; intros last ev Hch.
  - cbn in *. rewrite andb_true_r in Hch. apply Z.leb_le in Hch. auto.
  - cbn [app chronological] in Hch.
    apply andb_true_iff in Hch as [Hle Hch].
    destruct (IH _ _ Hch) as [Hc Hl]. split; [|exact Hl].
    cbn [chronological]. by rewrite Hle, Hc.
Qed.

(** A check is allowed exactly when fewer than [limit] checks of the same
    key were allowed during the sixty seconds before it, whatever checks of
    other keys and whatever cleanups happened in between, provided the clock
    never goes back. *)
Theorem rate_limit_sliding_window (evs : list rl_event) (k limit now : Z) :
  chronological 0 (evs ++ [RlCheck k limit now]) = true ->
  allowed (snd (checkRateLimit k limit now (fst (rl_run evs)))) = true <->
  Z.of_nat (length (recent now (granted k (snd (rl_run evs))))) < limit.
Proof.
  intros Hch. apply chronological_snoc in Hch as [Hc Hlast].
  cbn [rl_time] in Hlast.
  assert (H0 : rl_inv 0 (∅, [])).
  { intros k' t _. cbn. by rewrite lookup_empty. }
  pose proof (rl_run_inv evs 0 _ H0 Hc) as Hinv.
  rewrite checkRateLimit_allowed. unfold rl_run.
  rewrite (Hinv k now Hlast). rewrite negb_true_iff.
  destruct (Z.geb_spec (Z.of_nat (length (recent now
              (granted k (snd (fold_left rl_step evs (∅, [])))))))
              limit); split; intros; auto; try lia; discriminate.
Qed.

Lemma rate_limit_sliding_window_witness :
  allowed (snd (checkRateLimit 7 2 60999 (fst (rl_run burst)))) = true <->
  Z.of_nat (length (recent 60999 (granted 7 (snd (rl_run burst))))) < 2.
Proof.
  apply (rate_limit_sliding_window burst 7 2 60999).
  vm_compute. reflexivity.
Defined.


(** The periodic cleanup never changes a later decision: a check made at or
    after the time of a cleanup returns the same result as it would have
    without the cleanup. *)
Theorem cleanup_keeps_decisions (store : gmap Z (list Z))
    (t1 k limit now : Z) :
  t1 <= now ->
  snd (checkRateLimit k limit now (cleanupRateLimitStore t1 store))
  = snd (checkRateLimit k limit now store).
Proof.
  intros Ht. unfold checkRateLimit.
  destruct (checkRateLimit_requests k limit now store) as [-> _].
  destruct (checkRateLimit_requests k limit now
              (cleanupRateLimitStore t1 store)) as [-> _].
  rewrite cleanup_requests, recent_recent by exact Ht.
  by destruct (_ >=? _).
Qed.

Lemma cleanup_keeps_decisions_witness :
  snd (checkRateLimit 7 2 60999
         (cleanupRateLimitStore 60000 (fst (rl_run burst))))
  = snd (checkRateLimit 7 2 60999 (fst (rl_run burst))).
Proof.
  apply (cleanup_keeps_decisions (fst (rl_run burst)) 60000 7 2 60999).
  lia.
Defined.

(** An allowed check records its own time last and leaves at most [limit]
    timestamps stored for the key, all within the window; the remaining
    count it reports is what is left of the limit, and is not negative. *)
Theorem allowed_check_bounds (store : gmap Z (list Z)) (k limit now : Z) :
  let out := checkRateLimit k limit now store in
  allowed (snd out) = true ->
  exists l, fst out !! k = Some l /\
    last l = Some now /\
    Forall (fun ts => now - ts < windowMs) l /\
    Z.of_nat (length l) <= limit /\
    remaining (snd out) = limit - Z.of_nat (length l) /\
    0 <= remaining (snd out).
Proof.
  unfold checkRateLimit.
  destruct (checkRateLimit_requests k limit now store) as [-> _].
  destruct (Z.geb_spec
              (Z.of_nat (length (recent now (default [] (store !! k)))))
              limit) as [Hge|Hlt]; cbn [fst snd allowed remaining];
    [discriminate|]. intros _.
  eexists. split; [apply lookup_insert_eq|].
  rewrite length_app. cbn [length]. repeat split; try lia.
  - apply last_snoc.
  - apply Forall_app. split.
    + unfold recent. apply Forall_forall. intros x Hx.
      by apply list_elem_of_filter in Hx as [Hx _].
    + constructor; [unfold windowMs; lia | constructor].
Qed.

Lemma allowed_check_bounds_witness :
  exists l, fst (checkRateLimit 7 2 1500 (fst (rl_run [RlCheck 7 2 1000])))
              !! 7 = Some l /\
    last l = Some 1500 /\
    Forall (fun ts => 1500 - ts < windowMs) l /\
    Z.of_nat (length l) <= 2 /\
    remaining (snd (checkRateLimit 7 2 1500
                      (fst (rl_run [RlCheck 7 2 1000]))))
      = 2 - Z.of_nat (length l) /\
    0 <= remaining (snd (checkRateLimit 7 2 1500
                           (fst (rl_run [RlCheck 7 2 1000])))).
Proof.
  apply (allowed_check_bounds (fst (rl_run [RlCheck 7 2 1000])) 7 2 1500).
  vm_compute. reflexivity.
Defined.

(** * The fallback file name *)

(** The ASCII-safe name has the length of the file name, holds only
    characters between space and tilde, is the file name with each character
    outside that range replaced by an underscore and every other character
    kept where it was (double quotes and backslashes included: nothing is
    escaped), and sanitising it again changes nothing. *)
Theorem asciiSafeName_spec (filename : string) :
  String.length (asciiSafeName filename) = String.length filename /\
  Forall (fun c => is_printable c = true)
         (list_ascii_of_string (asciiSafeName filename)) /\
  (forall n, String.get n (asciiSafeName filename)
             = (fun c => if is_printable c then c else "_"%char)
                 <$> String.get n filename) /\
  asciiSafeName (asciiSafeName filename) = asciiSafeName filename.
Proof.
  induction filename as [|c s (IH1 & IH2 & IH3 & IH4)].
  - repeat split; try constructor.
  - cbn [asciiSafeName String.length list_ascii_of_string].
    split; [by rewrite IH1|]. split; [|split].
    + constructor; [|exact IH2]. by destruct (is_printable c) eqn:E.
    + intros [|n]; cbn; [reflexivity|apply IH3].
    + rewrite IH4. f_equal.
      destruct (is_printable c) eqn:E; [by rewrite E|reflexivity].
Qed.

(** * Cleanup *)


(** * The destination announcement *)

Lemma match_lit_complete l : forall p incap s cap,
  match_here (lit l ++ p) incap (l +:+ s) cap
  = match_here p incap s (pushes incap (list_ascii_of_string l) cap).
Proof.
  induction l as [|c l IH]; intros p incap s cap.
  - cbn. by destruct incap.
  - change (String c l +:+ s) with (String c (l +:+ s)).
    cbn [lit app match_here]. rewrite Ascii.eqb_refl, IH.
    cbn [list_ascii_of_string]. by rewrite pushes_cons.
Qed.

Lemma greedy_total {R} (k : string -> list ascii -> option R)
    (g : list ascii -> R) cls incap :
  (forall s cap, k s cap = Some (g cap)) ->
  forall s lo cap,
    greedy k cls incap lo None s cap =
    if (lo <=? String.length (take_while cls s))%nat
    then Some (g (pushes incap (list_ascii_of_string (take_while cls s)) cap))
    else None.
Proof.
  intros Hk. induction s as [|c s IH]; intros lo cap;
    cbn [greedy take_while].
  - rewrite Hk. destruct lo; cbn; [by destruct incap | reflexivity].
  - change ((fix go (lo0 : nat) (hi : option nat) (s0 : string)
                 (cap0 : list ascii) {struct s0} : option R := _) ?a ?b ?c ?d)
      with (greedy k cls incap a b c d).
    destruct (cls c) eqn:Hc; cbn [andb hi_allows hi_pred].
    + rewrite IH. cbn [String.length list_ascii_of_string].
      rewrite pushes_cons.
      destruct (Nat.leb_spec (Nat.pred lo) (String.length (take_while cls s)))
        as [Hle|Hgt].
      * rewrite (proj2 (Nat.leb_le _ _)) by lia. reflexivity.
      * rewrite (proj2 (Nat.leb_gt _ _)) by lia.
        destruct lo; [lia|reflexivity].
    + rewrite Hk. destruct lo; cbn; [by destruct incap | reflexivity].
Qed.

Lemma re_match_here p s r :
  match_here p false s [] = Some r -> re_match p s = Some r.
Proof. intros H. destruct s; cbn [re_match]; by rewrite H. Qed.

Lemma string_of_list_of_string s :
  string_of_list_ascii (list_ascii_of_string s) = s.
Proof. apply string_of_list_ascii_of_string. Qed.

(** A chunk that starts with a destination announcement announces the rest
    of its first line, trimmed, as the file to send, unless the chunk also
    holds a merger announcement. *)
Theorem destination_line_announces_file (s : string)
    (known : option string) :
  let output := "[download] Destination: " +:+ s in
  take_while is_dot s <> "" ->
  re_match re_merger output = None ->
  re_match re_dest output = Some (take_while is_dot s) /\
  announced_file output known = Some (trim (take_while is_dot s)).
Proof.
  intros output Hne Hmerger.
  assert (Hd : re_match re_dest output = Some (take_while is_dot s)).
  { assert (Hhere : match_here re_dest false output []
                    = Some (take_while is_dot s)).
    { unfold output, re_dest. rewrite match_lit_complete.
      cbn [match_here RPlus pushes].
      rewrite (greedy_total _ (fun cap => string_of_list_ascii (rev cap)))
        by reflexivity.
      destruct (take_while is_dot s) as [|c t] eqn:E; [done|].
      cbn [String.length Nat.leb pushes]. rewrite app_nil_r, rev_involutive.
      by rewrite string_of_list_of_string. }
    by apply re_match_here. }
  split; [exact Hd|]. unfold announced_file. by rewrite Hd, Hmerger.
Qed.

Lemma destination_line_announces_file_witness :
  re_match re_dest "[download] Destination: temp/j/clip.mp4 "
    = Some (take_while is_dot "temp/j/clip.mp4 ") /\
  announced_file "[download] Destination: temp/j/clip.mp4 " None
    = Some (trim (take_while is_dot "temp/j/clip.mp4 ")).
Proof.
  apply (destination_line_announces_file "temp/j/clip.mp4 " None).
  - discriminate.
  - vm_compute. reflexivity.
Defined.

(** * Callbacks and registry entries *)

(** While a callback of a request is still armed, the registry holds an
    entry for its job: the update idiom never meets an unknown identifier in
    a run of the server. *)
Theorem armed_request_has_entry (evs : list event) (id : string)
    (r : request) :
  let st := run init_server evs in
  requests st !! id = Some r -> phase r <> Done ->
  is_Some (activeJobs st !! id).
Proof.
  intros st Hr Hp.
  pose proof (run_inv evs init_server init_server_inv) as Hinv. fold st in Hinv.
  pose proof (inv_requests _ Hinv id r Hr) as Hok. unfold req_ok in Hok.
  destruct (phase r); try (destruct Hok as (jb & -> & _); eauto).
  by destruct Hp.
Qed.

Lemma armed_request_has_entry_witness :
  is_Some (activeJobs (run init_server streaming_job_events) !! "j").
Proof.
  apply (armed_request_has_entry streaming_job_events "j"
           (mkRequest (Some "temp/j/clip.mp4") Piping
              (ResFile "temp/j/clip.mp4" 52428800))).
  - vm_compute. reflexivity.
  - discriminate.
Defined.

(** * The request logger *)

Lemma logger_step_once l ev :
  (logged l = false -> logRequests l = []) ->
  (length (logRequests l) <= 1)%nat ->
  (logged (logger_step l ev) = false -> logRequests (logger_step l ev) = []) /\
  (length (logRequests (logger_step l ev)) <= 1)%nat.
Proof.
  intros Hl Hlen.
  assert (Hkeep : (logged l = false -> logRequests l = []) /\
                  (length (logRequests l) <= 1)%nat) by (by split).
  destruct ev as [key size|key sent]; cbn [logger_step].
  - destruct (wrapped l); [|exact Hkeep].
    destruct (logged l) eqn:E; cbn [negb andb].
    + cbn [logged logRequests]. split; [discriminate|exact Hlen].
    + destruct key; cbn [logged logRequests].
      * rewrite Hl by reflexivity. split; [discriminate|cbn; lia].
      * split; [intros _; by apply Hl | exact Hlen].
  - destruct (logged l) eqn:E; cbn [negb andb].
    + rewrite E. split; [discriminate|exact Hlen].
    + destruct sent, key; cbn [andb logged logRequests];
        try (rewrite E; split; [intros _; by apply Hl | exact Hlen]).
      rewrite Hl by reflexivity. split; [discriminate|cbn; lia].
Qed.

(** A request is logged at most once, whatever sequence of [res.send] calls
    and [finish] events its response goes through. *)
Theorem request_logged_at_most_once (evs : list logger_event) :
  (length (logRequests (logger_run evs)) <= 1)%nat.
Proof.
  unfold logger_run.
  assert (H : forall l,
            (logged l = false -> logRequests l = []) ->
            (length (logRequests l) <= 1)%nat ->
            (length (logRequests (fold_left logger_step evs l)) <= 1)%nat).
  { induction evs as [|ev evs IH]; intros l H1 H2; [exact H2|].
    cbn [fold_left]. destruct (logger_step_once l ev H1 H2). by apply IH. }
  apply H; cbn; auto.
Qed.

(** * Further properties, continued *)

(** ** The fields a job keeps from its request *)

Lemma run_snoc st evs ev : run st (evs ++ [ev]) = step (run st evs) ev.
Proof. unfold run. by rewrite fold_left_app. Qed.

Lemma keeps_request_fields_step st ev :
  server_inv st -> keeps_request_fields st ->
  keeps_request_fields (step st ev).
Proof.
  intros Hinv Hk id jb' Hjb'.
  assert (Hsame : activeJobs (step st ev) !! id = activeJobs st !! id ->
            jobId jb' = Some id /\
            (exists u, url jb' = Some u /\ truthy u = true) /\
            is_Some (format_id jb')).
  { intros E. rewrite E in Hjb'. by apply Hk. }
  assert (Hold : forall r, requests st !! id = Some r -> phase r <> Done ->
            exists jb, activeJobs st !! id = Some jb).
  { intros r Hr Hp. pose proof (inv_requests _ Hinv id r Hr) as Hok.
    unfold req_ok in Hok.
    destruct (phase r); try (destruct Hok as (jb & -> & _); eauto).
    by destruct Hp. }
  destruct ev as [i u f me se|i output| |i c|i n|i|i|dt| | | ];
    try (apply Hsame; reflexivity);
    try (destruct (decide (i = id)) as [->|Hne];
         [|apply Hsame; by apply (handler_untouched id i)]).
  - cbn [step] in *.
    destruct (negb (truthy u) || fresh id st) eqn:Hg; [|by apply Hsame].
    unfold post_download in *.
    destruct (truthy u) eqn:Hu; cbn [negb] in *; [|by apply Hsame].
    destruct me as [msg|]; [|destruct se as [msg|]]; cbn [fst] in Hjb';
      unfold post_catch in Hjb'; srv_simpl;
      unfold registry_update in Hjb'; rewrite ?lookup_insert_eq in Hjb';
      injection Hjb' as <-; cbn; eauto.
  - cbn [step] in *.
    destruct (in_phase_cases_phase Running id (stdout_data id output) st)
      as [E|(r & Hr & Hp & E)]; rewrite E in *; [by apply Hsame|].
    destruct (Hold r Hr ltac:(congruence)) as [jb Hjb].
    unfold stdout_data in Hjb'.
    destruct (re_match re_download output) as [m|]; srv_simpl;
      [|by apply Hk].
    rewrite lookup_insert_eq in Hjb'. injection Hjb' as <-.
    destruct (jobUpdate_others m output (activeJobs st !! id))
      as (-> & -> & -> & _).
    rewrite Hjb. cbn [spread]. by apply Hk.
  - cbn [step] in *.
    destruct (in_phase_cases_phase Running id (close_handler id c) st)
      as [E|(r & Hr & Hp & E)]; rewrite E in *; [by apply Hsame|].
    destruct (Hold r Hr ltac:(congruence)) as [jb Hjb].
    unfold close_handler in Hjb'.
    destruct c as [[| |]|]; try destruct (file_truthy _); srv_simpl;
      unfold registry_update in Hjb'; rewrite lookup_insert_eq, Hjb in Hjb';
      injection Hjb' as <-; cbn; by apply Hk.
  - cbn [step] in *.
    destruct (in_phase_cases_phase AwaitStat id (stat_result id n) st)
      as [E|(r & Hr & Hp & E)]; rewrite E in *; [by apply Hsame|].
    unfold stat_result in Hjb'. destruct n; srv_simpl; by apply Hk.
  - cbn [step] in *.
    destruct (in_phase_cases_phase Piping id (stream_end id) st)
      as [E|(r & Hr & Hp & E)]; rewrite E in *; [by apply Hsame|].
    destruct (Hold r Hr ltac:(congruence)) as [jb Hjb].
    unfold stream_end in Hjb'. srv_simpl. unfold registry_update in Hjb'.
    rewrite lookup_insert_eq, Hjb in Hjb'. injection Hjb' as <-.
    cbn. by apply Hk.
  - cbn [step] in *.
    destruct (in_phase_cases_phase Piping id (stream_error id) st)
      as [E|(r & Hr & Hp & E)]; rewrite E in *; [by apply Hsame|].
    unfold stream_error in Hjb'. srv_simpl. by apply Hk.
  - cbn [step] in Hjb'.
    destruct (tick_lookup st dt id) as [E|[E _]]; [by apply Hsame|].
    congruence.
Qed.

(** Every job the progress endpoint returns carries the identifier it was
    asked for, the truthy [url] of its request and a [format_id] key: the
    callbacks only ever change the other attributes. *)
Theorem entry_keeps_request_fields (evs : list event) (id : string) :
  match get_progress (activeJobs (run init_server evs)) id with
  | NotFound404 => True
  | JobJson jb =>
      jobId jb = Some id /\
      (exists u, url jb = Some u /\ truthy u = true) /\
      is_Some (format_id jb)
  end.
Proof.
  assert (H : keeps_request_fields (run init_server evs)).
  { induction evs as [|ev evs IH] using rev_ind.
    - intros i jb Hjb. unfold run in Hjb. cbn [fold_left] in Hjb.
      change (activeJobs init_server) with (∅ : gmap string job) in Hjb.
      by rewrite lookup_empty in Hjb.
    - rewrite run_snoc. apply keeps_request_fields_step; [|exact IH].
      apply run_inv, init_server_inv. }
  unfold get_progress.
  destruct (activeJobs (run init_server evs) !! id) eqn:E; [|exact I].
  by apply H.
Qed.

(** ** Processes *)

Lemma step_spawned st ev :
  spawned (step st ev) = spawned st \/
  exists id u f, ev = EPost id u f None None /\
    truthy u = true /\ requests st !! id = None /\
    spawned (step st ev) = (spawned st ++ [(id, u)])%list /\
    is_Some (requests (step st ev) !! id).
Proof.
  destruct ev as [i u f me se|i output| |i c|i n|i|i|dt| | | ]; cbn [step];
    try (by left).
  - destruct (truthy u) eqn:Hu; cbn [negb orb].
    + unfold fresh. case_bool_decide as Hf; [|by left].
      unfold post_download. rewrite Hu. cbn [negb].
      destruct me as [msg|]; [by left|]. destruct se as [msg|]; [by left|].
      right. exists i, u, f. cbn [fst]. srv_simpl.
      rewrite lookup_insert_eq. repeat split; eauto.
    + unfold post_download. rewrite Hu. by left.
  - destruct (in_phase_cases Running i (stdout_data i output) st)
      as [->|(r & _ & ->)]; [by left|]. left. unfold stdout_data.
    by destruct (re_match re_download output).
  - destruct (in_phase_cases Running i (close_handler i c) st)
      as [->|(r & _ & ->)]; [by left|]. left. unfold close_handler.
    by destruct c as [[| |]|]; try destruct (file_truthy _).
  - destruct (in_phase_cases AwaitStat i (stat_result i n) st)
      as [->|(r & _ & ->)]; [by left|]. left. unfold stat_result.
    by destruct n.
  - destruct (in_phase_cases Piping i (stream_end i) st)
      as [->|(r & _ & ->)]; by left.
  - destruct (in_phase_cases Piping i (stream_error i) st)
      as [->|(r & _ & ->)]; by left.
Qed.

Lemma step_requests_mono st ev id :
  is_Some (requests st !! id) -> is_Some (requests (step st ev) !! id).
Proof.
  intros [r Hr].
  assert (Hins : forall (m : gmap string request) i x,
            is_Some (m !! id) -> is_Some (<[i := x]> m !! id)).
  { intros m i x Hm. destruct (decide (i = id)) as [->|Hne].
    - rewrite lookup_insert_eq. eauto.
    - by rewrite lookup_insert_ne. }
  destruct ev as [i u f me se|i output| |i c|i n|i|i|dt| | | ]; cbn [step];
    try (by eauto).
  - destruct (negb (truthy u) || fresh i st); [|by eauto].
    unfold post_download. destruct (negb (truthy u)); [by eauto|].
    destruct me; [|destruct se]; cbn [fst]; unfold post_catch; srv_simpl;
      apply Hins; eauto.
  - destruct (in_phase_cases Running i (stdout_data i output) st)
      as [->|(r' & _ & ->)]; [by eauto|]. unfold stdout_data.
    destruct (re_match re_download output); srv_simpl; apply Hins; eauto.
  - destruct (in_phase_cases Running i (close_handler i c) st)
      as [->|(r' & _ & ->)]; [by eauto|]. unfold close_handler.
    destruct c as [[| |]|]; try destruct (file_truthy _); srv_simpl;
      apply Hins; eauto.
  - destruct (in_phase_cases AwaitStat i (stat_result i n) st)
      as [->|(r' & _ & ->)]; [by eauto|]. unfold stat_result.
    destruct n; srv_simpl; apply Hins; eauto.
  - destruct (in_phase_cases Piping i (stream_end i) st)
      as [->|(r' & _ & ->)]; [by eauto|]. unfold stream_end. srv_simpl.
    apply Hins; eauto.
  - destruct (in_phase_cases Piping i (stream_error i) st)
      as [->|(r' & _ & ->)]; [by eauto|]. unfold stream_error. srv_simpl.
    apply Hins; eauto.
Qed.

Lemma spawned_ok_step st ev : spawned_ok st -> spawned_ok (step st ev).
Proof.
  intros [Hnd Hin]. unfold spawned_ok.
  destruct (step_spawned st ev)
    as [E|(id & u & f & -> & Hu & Hfresh & E & Hreq)]; rewrite E.
  - split; [exact Hnd|]. intros id u Hm.
    destruct (Hin id u Hm) as [Hu Hr]. split; [exact Hu|].
    by apply step_requests_mono.
  - split.
    + rewrite fmap_app. apply NoDup_app. split; [exact Hnd|]. split.
      * intros x Hx Hx'. apply list_elem_of_singleton in Hx'. subst x.
        apply list_elem_of_fmap in Hx as ([i v] & Hi & Hm). cbn in Hi.
        subst i. destruct (Hin id v Hm) as [_ [r Hr]]. congruence.
      * apply NoDup_singleton.
    + intros i v Hm. apply elem_of_app in Hm as [Hm|Hm].
      * destruct (Hin i v Hm) as [Hv Hr]. split; [exact Hv|].
        by apply step_requests_mono.
      * apply list_elem_of_singleton in Hm. injection Hm as -> ->.
        by split.
Qed.

(** At most one process is ever spawned for a job, and each process spawned
    belongs to a request that carried a truthy [url]: a request rejected for
    its missing [url] never starts one. *)
Theorem one_process_per_job (evs : list event) :
  let st := run init_server evs in
  NoDup (fst <$> spawned st) /\
  Forall (fun p => truthy (snd p) = true /\
                   is_Some (requests st !! fst p)) (spawned st).
Proof.
  assert (H : spawned_ok (run init_server evs)).
  { induction evs as [|ev evs IH] using rev_ind.
    - split; [constructor|]. intros id u Hm. by apply elem_of_nil in Hm.
    - rewrite run_snoc. by apply spawned_ok_step. }
  destruct H as [Hnd Hin]. split; [exact Hnd|].
  apply Forall_forall. intros [id u] Hm. by apply Hin.
Qed.

(** ** The request logger, continued *)

(** A response that is sent while [req.apiKeyId] is unset (the request was
    not authenticated) is never logged. *)
Theorem unauthenticated_request_not_logged (evs : list logger_event) :
  forallb (fun ev => match ev with
                     | LgSend key _ | LgFinish key _ => negb key
                     end) evs = true ->
  logRequests (logger_run evs) = [].
Proof.
  unfold logger_run.
  assert (H : forall l, logRequests l = [] ->
            forallb (fun ev => match ev with
                               | LgSend key _ | LgFinish key _ => negb key
                               end) evs = true ->
            logRequests (fold_left logger_step evs l) = []).
  { induction evs as [|ev evs IH]; intros l Hl Hevs; [exact Hl|].
    cbn [forallb] in Hevs. apply andb_true_iff in Hevs as [Hev Hevs].
    cbn [fold_left]. apply IH; [|exact Hevs].
    destruct ev as [key size|key sent]; apply negb_true_iff in Hev;
      subst key; cbn [logger_step].
    - rewrite andb_false_r. by destruct (wrapped l).
    - by rewrite andb_false_r. }
  by apply H.
Qed.

Lemma unauthenticated_request_not_logged_witness :
  logRequests (logger_run [LgSend false 42; LgFinish false true]) = [].
Proof.
  apply (unauthenticated_request_not_logged
           [LgSend false 42; LgFinish false true]).
  reflexivity.
Defined.

(** ** The rate limiter, continued *)

(** A denied check changes no stored timestamp, of any key, and reports no
    remaining request: being refused does not prolong the refusal. *)
Theorem denied_check_changes_nothing (store : gmap Z (list Z))
    (k limit now : Z) :
  let out := checkRateLimit k limit now store in
  allowed (snd out) = false ->
  remaining (snd out) = 0 /\
  forall k', default [] (fst out !! k') = default [] (store !! k').
Proof.
  unfold checkRateLimit.
  destruct (checkRateLimit_requests k limit now store) as [Hk Hother].
  rewrite Hk.
  destruct (_ >=? _); cbn [fst snd allowed remaining]; [|discriminate].
  intros _. split; [reflexivity|]. intros k'.
  destruct (decide (k' = k)) as [->|Hne]; [exact Hk|].
  by rewrite Hother.
Qed.

Lemma denied_check_changes_nothing_witness :
  let out := checkRateLimit 7 2 2000 (fst (rl_run burst)) in
  remaining (snd out) = 0 /\
  forall k', default [] (fst out !! k')
             = default [] (fst (rl_run burst) !! k').
Proof.
  apply (denied_check_changes_nothing (fst (rl_run burst)) 7 2 2000).
  vm_compute. reflexivity.
Defined.

(** ** The events of the gate *)

Lemma gate_ids_step m ev :
  started_ids (emitted m) = dj_jobId <$> started m ->
  started_ids (emitted (dm_step m ev))
    = dj_jobId <$> started (dm_step m ev) /\
  queued_ids (emitted (dm_step m ev))
    = (queued_ids (emitted m) ++ (dj_jobId <$> enqueued [ev]))%list.
Proof.
  intros Hs.
  assert (Hp : forall m',
            started_ids (emitted m') = dj_jobId <$> started m' ->
            started_ids (emitted (processQueue m'))
              = dj_jobId <$> started (processQueue m') /\
            queued_ids (emitted (processQueue m'))
              = queued_ids (emitted m')).
  { intros m' H. unfold processQueue. destruct (_ >=? _); [by split|].
    destruct (queue m') as [|jb q]; [by split|]. cbn [emitted started].
    unfold started_ids, queued_ids in *. rewrite !omap_app, fmap_app, H.
    cbn. by rewrite app_nil_r. }
  destruct ev as [jb|i o]; cbn [dm_step enqueued omap].
  - unfold addToQueue.
    match goal with |- context [processQueue ?x] => destruct (Hp x) as [A B] end.
    { cbn [emitted started]. unfold started_ids in *. rewrite omap_app, Hs.
      cbn. by rewrite app_nil_r. }
    split; [exact A|]. rewrite B. cbn [emitted]. unfold queued_ids.
    by rewrite omap_app.
  - rewrite app_nil_r. unfold settle.
    destruct (executing m !! i); [|by split].
    match goal with |- context [processQueue ?x] => destruct (Hp x) as [A B] end.
    { cbn [emitted started]. unfold started_ids in *. rewrite omap_app, Hs.
      destruct o; cbn; by rewrite app_nil_r. }
    split; [exact A|]. rewrite B. cbn [emitted]. unfold queued_ids.
    rewrite omap_app. destruct o; cbn; by rewrite app_nil_r.
Qed.

(** The gate announces its work in order: the identifiers of the [queued]
    events are those of the jobs enqueued, in order, and the identifiers of
    the [started] events form a prefix of them. *)
Theorem gate_events_in_order (o : option Z) (evs : list dm_event) :
  let m := dm_run (new_manager o) evs in
  queued_ids (emitted m) = dj_jobId <$> enqueued evs /\
  started_ids (emitted m) `prefix_of` queued_ids (emitted m).
Proof.
  intros m.
  assert (H : started_ids (emitted m) = dj_jobId <$> started m /\
              queued_ids (emitted m) = dj_jobId <$> enqueued evs).
  { subst m. induction evs as [|ev evs IH] using rev_ind; [by split|].
    unfold dm_run in *. rewrite fold_left_app. cbn [fold_left].
    destruct IH as [A B]. destruct (gate_ids_step _ ev A) as [A' B'].
    split; [exact A'|]. rewrite B', B. unfold enqueued.
    by rewrite omap_app, fmap_app. }
  destruct H as [A B]. split; [exact B|].
  rewrite A, B.
  assert (Hf : forall l m0,
            (started (dm_run m0 l) ++ queue (dm_run m0 l))%list
            = (started m0 ++ queue m0 ++ enqueued l)%list).
  { induction l as [|e l IH]; intros m0.
    - cbn. by rewrite app_nil_r.
    - cbn [dm_run fold_left].
      change (fold_left dm_step l (dm_step m0 e))
        with (dm_run (dm_step m0 e) l).
      rewrite IH, app_assoc, dm_step_fifo, (enqueued_cons e l).
      by rewrite <- !app_assoc. }
  specialize (Hf evs (new_manager o)). cbn [new_manager started queue app] in Hf.
  fold m in Hf. rewrite <- Hf, fmap_app. by eexists.
Qed.
